(** * Kepler propagator and cross-validation of [d3/script.js]

    A shallow embedding of [solveKepler], [elementsToPosition] and
    [crossValidateElements] (script.js, lines 369-470), written once over an
    interface of the JavaScript Number operations the code uses, and
    instantiated twice: with Rocq's binary64 floats, the numbers the script
    really runs on, and with the real numbers, the idealisation in which the
    geometric properties of the propagator are exact. *)

From Stdlib Require Import QArith ZArith List Bool Lia Sorted Permutation.
From Stdlib Require Import Qround Qminmax.
From Stdlib Require String.
From Stdlib Require Lqa.
From Stdlib Require Import Reals Lra Zfloor.
From Stdlib Require Import Floats.
From Stdlib Require Uint63.
Import ListNotations.

Close Scope Q_scope.
Set Implicit Arguments.

(** ** JavaScript numbers *)

(** The operations of a JavaScript Number that the script applies.
    [num_of_Q q] is the Number a decimal literal (or an integer counter)
    denotes; [falsy x] is [ToBoolean x = false], which for a Number means
    that [x] is a zero or NaN. *)
Class JSNumber (num : Type) : Type := {
  num_of_Q : Q -> num;
  Math_PI : num;
  add : num -> num -> num;
  sub : num -> num -> num;
  mul : num -> num -> num;
  div : num -> num -> num;
  rem : num -> num -> num;
  neg : num -> num;
  lt : num -> num -> bool;
  falsy : num -> bool;
  Math_sqrt : num -> num;
  Math_abs : num -> num;
  Math_sin : num -> num;
  Math_cos : num -> num;
  Math_atan2 : num -> num -> num
}.

Declare Scope js_scope.
Delimit Scope js_scope with js.
Infix "+" := add : js_scope.
Infix "-" := sub : js_scope.
Infix "*" := mul : js_scope.
Infix "/" := div : js_scope.
Infix "mod" := rem : js_scope.
Notation "- x" := (neg x) : js_scope.
Infix "<?" := lt : js_scope.

(** A decimal literal of the script. *)
Definition lit {num} `{JSNumber num} (q : Q) : num := num_of_Q q.
Arguments lit {num _} q%_Q.

(** ** Values read from [scene.json] *)

(** What an array read [arr[i]] can produce: a number, [null] (a time index
    at which the object has no data) or [undefined] (an index past the end of
    the array). *)
Inductive jsval (num : Type) : Type :=
| JUndefined
| JNull
| JNum (v : num).
Arguments JUndefined {num}.
Arguments JNull {num}.

(** [obj.elements]: each field is a number, is [null], or is missing
    ([undefined]). *)
Record elements_t (num : Type) : Type := {
  a_AU : jsval num;
  e : jsval num;
  i_deg : jsval num
}.

(** An object of [scene.objects]: the optional elements and the position
    arrays, whose entries are numbers or [null]. *)
Record object (num : Type) : Type := {
  elements : option (elements_t num);
  x : list (option num);
  y : list (option num);
  z : list (option num)
}.

(** The value returned by [crossValidateElements] when it is not [null]. *)
Record validation (num : Type) : Type := {
  rms_km : num;
  samples : nat
}.

Section Propagator.

Context {num : Type} `{JSNumber num}.
Local Open Scope js_scope.

(** *** Constants (script.js, lines 369-370) *)

Definition AU_KM : num := lit 149597870.7.
Definition MU_SUN : num := lit 1.32712440018e11.

(** Default arguments of [solveKepler] and [elementsToPosition]. *)
Definition default_tol : num := lit 1e-9.
Definition default_maxiter : nat := 80.
Definition default_epochJD : num := lit 2451545.0.

(** *** [solveKepler] (lines 372-385) *)

(** Line 375: [((M % (2*Math.PI)) + 2*Math.PI) % (2*Math.PI)]. *)
Definition normalize_angle (M : num) : num :=
  ((M mod (lit 2 * Math_PI)) + lit 2 * Math_PI) mod (lit 2 * Math_PI).

(** The correction [dE = -f / fp] of lines 378-380. *)
Definition newton_delta (ecc M E : num) : num :=
  let f := E - ecc * Math_sin E - M in
  let fp := lit 1 - ecc * Math_cos E in
  (- f) / fp.

(** The [for] loop of lines 377-383, by recursion on the number of
    iterations that remain, [maxiter - i]. An iteration adds [dE] to [E] and
    then leaves the loop when [Math.abs(dE) < tol]. *)
Fixpoint newton_loop (ecc M tol : num) (remaining : nat) (E : num) : num :=
  match remaining with
  | O => E
  | S k =>
      let dE := newton_delta ecc M E in
      let E' := E + dE in
      if Math_abs dE <? tol then E' else newton_loop ecc M tol k E'
  end.

(** [maxiter] is a count of iterations, a natural number. *)
Definition solveKepler (M ecc tol : num) (maxiter : nat) : num :=
  let M := normalize_angle M in
  let E := if ecc <? lit 0.8 then M else Math_PI in
  newton_loop ecc M tol maxiter E.

(** *** [elementsToPosition] (lines 387-435) *)

(** Line 396 of the script: the mean motion, in radians per second. *)
Definition mean_motion (a_km : num) : num :=
  Math_sqrt (MU_SUN / (a_km * a_km * a_km)).

(** [targetJD] is [None] for [null]. The defaults of the optional
    parameters are supplied by the callers. *)
Definition elementsToPosition
    (a_AU ecc i_deg Omega_deg omega_deg M_deg epochJD : num)
    (targetJD : option num) : num * num * num :=
  let a_km := a_AU * AU_KM in
  let i := i_deg * Math_PI / lit 180 in
  let Omega := Omega_deg * Math_PI / lit 180 in
  let omega := omega_deg * Math_PI / lit 180 in
  let n := mean_motion a_km in
  let M0 := M_deg * Math_PI / lit 180 in
  let M :=
    match targetJD with
    | Some targetJD =>
        let dt := (targetJD - epochJD) * lit 86400.0 in
        M0 + n * dt
    | None => M0
    end in
  let E := solveKepler M ecc default_tol default_maxiter in
  let cosE := Math_cos E in
  let sinE := Math_sin E in
  let sqrt1e2 := Math_sqrt (lit 1 - ecc * ecc) in
  let nu := Math_atan2 (sqrt1e2 * sinE) (cosE - ecc) in
  let r := a_km * (lit 1 - ecc * cosE) in
  let x_pf := r * Math_cos nu in
  let y_pf := r * Math_sin nu in
  let z_pf := lit 0 in
  let cosO := Math_cos Omega in
  let sinO := Math_sin Omega in
  let cosi := Math_cos i in
  let sini := Math_sin i in
  let cosw := Math_cos omega in
  let sinw := Math_sin omega in
  let r11 := cosO * cosw - sinO * sinw * cosi in
  let r12 := (- cosO) * sinw - sinO * cosw * cosi in
  let r13 := sinO * sini in
  let r21 := sinO * cosw + cosO * sinw * cosi in
  let r22 := (- sinO) * sinw + cosO * cosw * cosi in
  let r23 := (- cosO) * sini in
  let r31 := sinw * sini in
  let r32 := cosw * sini in
  let r33 := cosi in
  let x := r11 * x_pf + r12 * y_pf + r13 * z_pf in
  let y := r21 * x_pf + r22 * y_pf + r23 * z_pf in
  let z := r31 * x_pf + r32 * y_pf + r33 * z_pf in
  (x, y, z).

(** *** [crossValidateElements] (lines 438-470) *)

(** The array read [arr[i]]. *)
Definition arr_get (arr : list (option num)) (i : nat) : jsval num :=
  match nth_error arr i with
  | Some (Some v) => JNum v
  | Some None => JNull
  | None => JUndefined
  end.

(** [v !== null]. *)
Definition not_null (v : jsval num) : bool :=
  match v with
  | JNull => false
  | _ => true
  end.

(** [v || 0]. *)
Definition or_zero (v : jsval num) : num :=
  match v with
  | JNum n => if falsy n then lit 0 else n
  | _ => lit 0
  end.

(** Lines 444-447: the indices [i < times.length] with
    [obj.x[i] !== null && obj.y[i] !== null]. *)
Definition validIdx (times : list num) (obj : object num) : list nat :=
  filter (fun i => not_null (arr_get (x obj) i) && not_null (arr_get (y obj) i))
         (seq 0 (length times)).

(** Line 450: [Math.max(1, Math.floor(validIdx.length / numSamples))]. For
    [numSamples = 0] the script's step is [Infinity] and this one is 1; the
    loop that uses it then makes no iteration. *)
Definition sample_step (validCount numSamples : nat) : nat :=
  Nat.max 1 (validCount / numSamples).

(** The loop of lines 451-453, from position [j], by recursion on
    [numSamples - samples.length]. *)
Fixpoint pick_samples (valid : list nat) (step remaining j : nat) : list nat :=
  match remaining with
  | O => []
  | S k =>
      match nth_error valid j with
      | Some idx => idx :: pick_samples valid step k (j + step)
      | None => []
      end
  end.

Definition select_samples (valid : list nat) (numSamples : nat) : list nat :=
  pick_samples valid (sample_step (length valid) numSamples) numSamples 0.

(** The body of the loop of lines 456-466 on the accumulators
    [(sqsum, count)]. Every [idx] is below [times.length], so the default of
    [nth] is never read. *)
Definition residual_step (times : list num) (obj : object num) (a ecc i : num)
    (acc : num * nat) (idx : nat) : num * nat :=
  let '(sqsum, count) := acc in
  let jd := nth idx times (lit 0) in
  let '(px, py, pz) :=
    elementsToPosition a ecc i (lit 0) (lit 0) (lit 0) (lit 2451545.0) (Some jd) in
  let dx := or_zero (arr_get (x obj) idx) - px in
  let dy := or_zero (arr_get (y obj) idx) - py in
  let dz := or_zero (arr_get (z obj) idx) - pz in
  (sqsum + (dx * dx + dy * dy + dz * dz), S count).

(** The test [!v] of line 439 fails: [v] is a Number that is neither a zero
    nor NaN, and not [undefined] or [null]. *)
Definition truthy_number (v : jsval num) : option num :=
  match v with
  | JNum n => if falsy n then None else Some n
  | _ => None
  end.

(** The test [v === undefined] of line 439 fails: [v] is a Number, or it is
    [null], which the arithmetic of [elementsToPosition] and [solveKepler]
    converts to [+0] wherever it uses it. *)
Definition defined_number (v : jsval num) : option num :=
  match v with
  | JUndefined => None
  | JNull => Some (lit 0)
  | JNum n => Some n
  end.

(** [times] is [scene.times_jd]; the result is [None] for [null]. *)
Definition crossValidateElements (times : list num) (obj : object num)
    (numSamples : nat) : option (validation num) :=
  match elements obj with
  | None => None
  | Some el =>
      match truthy_number (a_AU el),
            defined_number (e el), defined_number (i_deg el) with
      | Some a, Some ecc, Some i =>
          let valid := validIdx times obj in
          if (length valid <? 3)%nat then None
          else
            let samples := select_samples valid numSamples in
            let '(sqsum, count) :=
              fold_left (residual_step times obj a ecc i) samples (lit 0, O) in
            match count with
            | O => None
            | S _ =>
                let rms := Math_sqrt (sqsum / lit (inject_Z (Z.of_nat count))) in
                Some {| rms_km := rms; samples := count |}
            end
      | _, _, _ => None
      end
  end.

End Propagator.

(** ** The numbers of the script: binary64 floats *)

Module FloatNumber.

(** An integer as a float; exact below [2^53]. *)
Definition float_of_Z (n : Z) : float :=
  match n with
  | Z0 => PrimFloat.zero
  | Zpos _ => PrimFloat.of_uint63 (Uint63.of_Z n)
  | Zneg p => PrimFloat.opp (PrimFloat.of_uint63 (Uint63.of_Z (Zpos p)))
  end.

(** The float nearest to a rational with numerator and denominator below
    [2^53] in lowest terms: both are floats, and the division rounds
    correctly. Every literal of the script is such a rational. *)
Definition float_of_Q (q : Q) : float :=
  let q' := Qred q in
  PrimFloat.div (float_of_Z (Qnum q')) (float_of_Z (Zpos (Qden q'))).

(** [ToBoolean] of a Number is false for [+0], [-0] and NaN. *)
Definition float_falsy (v : float) : bool :=
  PrimFloat.eqb v PrimFloat.zero || PrimFloat.is_nan v.

Section HostMath.

(** ECMAScript leaves [Math.sin], [Math.cos] and [Math.atan2] to the host
    (implementation-approximated), and binary64 remainder is not among Rocq's
    primitive operations: the four are parameters of the instance. *)
Variables (host_sin host_cos : float -> float).
Variables (host_atan2 host_rem : float -> float -> float).

Definition float_JSNumber : JSNumber float := {|
  num_of_Q := float_of_Q;
  Math_PI := 0x1.921fb54442d18p+1%float;
  add := PrimFloat.add;
  sub := PrimFloat.sub;
  mul := PrimFloat.mul;
  div := PrimFloat.div;
  rem := host_rem;
  neg := PrimFloat.opp;
  lt := PrimFloat.ltb;
  falsy := float_falsy;
  Math_sqrt := PrimFloat.sqrt;
  Math_abs := PrimFloat.abs;
  Math_sin := host_sin;
  Math_cos := host_cos;
  Math_atan2 := host_atan2
|}.

End HostMath.

End FloatNumber.

(** ** The idealisation: real numbers *)

(** The reals have no NaN and no infinities, and the division of the
    Standard Library is total, [x / 0] being 0: the instance stands for the
    script where it divides by no zero, which is the case for [a <> 0] and
    [e cos E <> 1], in particular on the elements of the data model,
    [a > 0] and [0 <= e < 1]. *)

Module RealNumber.

Local Open Scope R_scope.

(** Rounding towards zero, the quotient of [%]. *)
Definition Rtrunc (v : R) : R :=
  if Rle_dec 0 v then IZR (Zfloor v) else IZR (Zceil v).

(** [a % b]: the remainder has the sign of the dividend. *)
Definition Rrem (a b : R) : R := a - b * Rtrunc (a / b).

Definition Rltb (a b : R) : bool := if Rlt_dec a b then true else false.

(** The only falsy real is 0: there is no NaN. *)
Definition Rfalsy (v : R) : bool := if Req_dec_T v 0 then true else false.

(** The angle of the point [(b, a)], in [(-PI, PI]]. *)
Definition Ratan2 (a b : R) : R :=
  if Rlt_dec 0 b then atan (a / b)
  else if Rlt_dec b 0 then
    (if Rle_dec 0 a then atan (a / b) + PI else atan (a / b) - PI)
  else if Rlt_dec 0 a then PI / 2
  else if Rlt_dec a 0 then - (PI / 2)
  else 0.

#[export] Instance R_JSNumber : JSNumber R := {|
  num_of_Q := Q2R;
  Math_PI := PI;
  add := Rplus;
  sub := Rminus;
  mul := Rmult;
  div := Rdiv;
  rem := Rrem;
  neg := Ropp;
  lt := Rltb;
  falsy := Rfalsy;
  Math_sqrt := R_sqrt.sqrt;
  Math_abs := Rabs;
  Math_sin := sin;
  Math_cos := cos;
  Math_atan2 := Ratan2
|}.

End RealNumber.

(** ** Reference notions, in the words of the specification *)

Section Reference.

Context {num : Type} `{JSNumber num}.
Local Open Scope js_scope.

(** The [k]-th Newton-Raphson iterate from [E]: [k] updates [E <- E + dE]. *)
Fixpoint newton_iterate (ecc M : num) (k : nat) (E : num) : num :=
  match k with
  | O => E
  | S k' => newton_iterate ecc M k' (E + newton_delta ecc M E)
  end.

(** The update that follows the [j]-th iterate is below the tolerance. *)
Definition small_update (ecc M tol E0 : num) (j : nat) : bool :=
  Math_abs (newton_delta ecc M (newton_iterate ecc M j E0)) <? tol.

(** The coordinate recorded in a position array at a time index, an absent
    one being 0. *)
Definition coordinate (arr : list (option num)) (idx : nat) : num :=
  match nth_error arr idx with
  | Some (Some v) => v
  | _ => lit 0
  end.

(** The recorded position at a time index, an absent coordinate being 0. *)
Definition recorded_position (obj : object num) (idx : nat) : num * num * num :=
  (coordinate (x obj) idx, coordinate (y obj) idx, coordinate (z obj) idx).

(** The recorded coordinates are plain numbers: none is a falsy Number other
    than [+0], that is NaN or [-0], which [v || 0] would replace by [+0]. *)
Definition plain_coordinates (obj : object num) : Prop :=
  forall arr v,
    In arr [x obj; y obj; z obj] -> In (Some v) arr ->
    falsy v = true -> v = lit 0.

(** What lines 461-463 read at a time index: [obj.x[idx] || 0],
    [obj.y[idx] || 0] and [obj.z[idx] || 0]. *)
Definition read_position (obj : object num) (idx : nat) : num * num * num :=
  (or_zero (arr_get (x obj) idx),
   or_zero (arr_get (y obj) idx),
   or_zero (arr_get (z obj) idx)).

(** The position propagated to the Julian date of a time index, with
    [Omega = omega = M0 = 0] and the epoch J2000. *)
Definition propagated_position (times : list num) (a ecc i : num) (idx : nat)
    : num * num * num :=
  elementsToPosition a ecc i (lit 0) (lit 0) (lit 0) (lit 2451545.0)
                     (Some (nth idx times (lit 0))).

(** The squared Euclidean distance of two positions. *)
Definition squared_distance (p q : num * num * num) : num :=
  let '(px, py, pz) := p in
  let '(qx, qy, qz) := q in
  let dx := px - qx in
  let dy := py - qy in
  let dz := pz - qz in
  dx * dx + dy * dy + dz * dz.

(** The sum of a list of numbers, accumulated from 0 in list order. *)
Definition sum_list (l : list num) : num := fold_left add l (lit 0).

(** The squared distance between the recorded and the propagated position
    at a time index. *)
Definition residual (times : list num) (obj : object num) (a ecc i : num)
    (idx : nat) : num :=
  squared_distance (recorded_position obj idx)
                   (propagated_position times a ecc i idx).

(** The root mean square of the residuals at the selected time indices. *)
Definition rms_residual (times : list num) (obj : object num) (a ecc i : num)
    (selected : list nat) : num :=
  Math_sqrt (sum_list (map (residual times obj a ecc i) selected)
             / lit (inject_Z (Z.of_nat (length selected)))).

(** The value that line 464 adds to [sqsum] at a time index. *)
Definition read_residual (times : list num) (obj : object num) (a ecc i : num)
    (idx : nat) : num :=
  squared_distance (read_position obj idx)
                   (propagated_position times a ecc i idx).

(** The value that line 468 takes the root of, on the selected indices. *)
Definition read_rms (times : list num) (obj : object num) (a ecc i : num)
    (selected : list nat) : num :=
  Math_sqrt (sum_list (map (read_residual times obj a ecc i) selected)
             / lit (inject_Z (Z.of_nat (length selected)))).

(** The elements of an object are complete: [a], [e] and [i] are present,
    each with a number. *)
Definition complete_elements (obj : object num) : Prop :=
  exists el a ecc i,
    elements obj = Some el /\
    a_AU el = JNum a /\ e el = JNum ecc /\ i_deg el = JNum i.

(** The semi-major axis is present, but is a zero or NaN. *)
Definition falsy_axis (obj : object num) : Prop :=
  exists el a,
    elements obj = Some el /\ a_AU el = JNum a /\ falsy a = true.

(** What the guard of line 439 takes for missing besides a falsy number:
    there are no elements, or [a] is [undefined] or [null], or [e] or [i] is
    [undefined]. An [e] or an [i] that is [null] is not missing for it. *)
Definition missing_element (obj : object num) : Prop :=
  elements obj = None \/
  exists el,
    elements obj = Some el /\
    (a_AU el = JUndefined \/ a_AU el = JNull \/
     e el = JUndefined \/ i_deg el = JUndefined).

(** The number of time indices that the function takes for valid. *)
Definition valid_count (times : list num) (obj : object num) : nat :=
  length (validIdx times obj).

(** The position arrays are aligned with the time grid, as the scene
    builder writes them. *)
Definition aligned (times : list num) (obj : object num) : Prop :=
  length (x obj) = length times /\ length (y obj) = length times.

(** A recorded sample has an [x] and a [y]. *)
Definition has_xy (xy : option num * option num) : bool :=
  match xy with
  | (Some _, Some _) => true
  | _ => false
  end.

(** The recorded samples with a non-null [x] and [y]. *)
Definition recorded_samples (obj : object num)
    : list (option num * option num) :=
  filter has_xy (combine (x obj) (y obj)).

(** *** The two halves of [elementsToPosition] *)

(** Lines 391-404: the mean anomaly at the target date, in radians. *)
Definition mean_anomaly_at (a_AU M_deg epochJD : num) (targetJD : option num)
    : num :=
  let a_km := a_AU * AU_KM in
  let n := mean_motion a_km in
  let M0 := M_deg * Math_PI / lit 180 in
  match targetJD with
  | Some targetJD =>
      let dt := (targetJD - epochJD) * lit 86400.0 in
      M0 + n * dt
  | None => M0
  end.

(** Lines 406-434: the position at the eccentric anomaly [E]. *)
Definition position_of_anomaly (a_AU ecc i_deg Omega_deg omega_deg E : num)
    : num * num * num :=
  let a_km := a_AU * AU_KM in
  let i := i_deg * Math_PI / lit 180 in
  let Omega := Omega_deg * Math_PI / lit 180 in
  let omega := omega_deg * Math_PI / lit 180 in
  let cosE := Math_cos E in
  let sinE := Math_sin E in
  let sqrt1e2 := Math_sqrt (lit 1 - ecc * ecc) in
  let nu := Math_atan2 (sqrt1e2 * sinE) (cosE - ecc) in
  let r := a_km * (lit 1 - ecc * cosE) in
  let x_pf := r * Math_cos nu in
  let y_pf := r * Math_sin nu in
  let z_pf := lit 0 in
  let cosO := Math_cos Omega in
  let sinO := Math_sin Omega in
  let cosi := Math_cos i in
  let sini := Math_sin i in
  let cosw := Math_cos omega in
  let sinw := Math_sin omega in
  let r11 := cosO * cosw - sinO * sinw * cosi in
  let r12 := (- cosO) * sinw - sinO * cosw * cosi in
  let r13 := sinO * sini in
  let r21 := sinO * cosw + cosO * sinw * cosi in
  let r22 := (- sinO) * sinw + cosO * cosw * cosi in
  let r23 := (- cosO) * sini in
  let r31 := sinw * sini in
  let r32 := cosw * sini in
  let r33 := cosi in
  (r11 * x_pf + r12 * y_pf + r13 * z_pf,
   r21 * x_pf + r22 * y_pf + r23 * z_pf,
   r31 * x_pf + r32 * y_pf + r33 * z_pf).

(** *** The solver's loop as a transition system *)

(** The loop is at the test [i < maxiter] with the current [E], or has been
    left with the value that [solveKepler] returns. *)
Inductive loop_state : Type :=
| Running (i : nat) (E : num)
| Returned (E : num).

Inductive loop_step (ecc M tol : num) (maxiter : nat)
    : loop_state -> loop_state -> Prop :=
| step_cap i E :
    maxiter <= i ->
    loop_step ecc M tol maxiter (Running i E) (Returned E)
| step_break i E :
    i < maxiter ->
    (Math_abs (newton_delta ecc M E) <? tol) = true ->
    loop_step ecc M tol maxiter (Running i E)
              (Returned (E + newton_delta ecc M E))
| step_next i E :
    i < maxiter ->
    (Math_abs (newton_delta ecc M E) <? tol) = false ->
    loop_step ecc M tol maxiter (Running i E)
              (Running (S i) (E + newton_delta ecc M E)).

(** [n] transitions. *)
Inductive loop_steps (ecc M tol : num) (maxiter : nat)
    : nat -> loop_state -> loop_state -> Prop :=
| steps_O s : loop_steps ecc M tol maxiter 0 s s
| steps_S n s1 s2 s3 :
    loop_step ecc M tol maxiter s1 s2 ->
    loop_steps ecc M tol maxiter n s2 s3 ->
    loop_steps ecc M tol maxiter (S n) s1 s3.

(** The state in which [solveKepler] enters its loop. *)
Definition loop_entry (M ecc : num) : loop_state :=
  Running 0 (if ecc <? lit 0.8 then normalize_angle M else Math_PI).

End Reference.

(** *** Sample selection *)

(** The valid positions that follow the last of [count] selected ones. *)
Definition unsampled_tail (validCount count step : nat) : nat :=
  validCount - 1 - (count - 1) * step.

(** The selection reaches the end of the valid range: after the last
    selected position there is no room for one more stride. *)
Definition spans_valid_range (valid : list nat) (numSamples : nat) : Prop :=
  unsampled_tail (length valid) (length (select_samples valid numSamples))
                 (sample_step (length valid) numSamples)
  < sample_step (length valid) numSamples.

(** Strictly increasing lists of indices. *)
Definition increasing (l : list nat) : Prop := StronglySorted Nat.lt l.

(** ** The store an invocation can reach *)

(** [crossValidateElements] reads the global [scene.times_jd] and the object
    it is passed by reference; its arrays [validIdx] and [samples] and its
    accumulators are fresh local variables. A computation takes the store
    and returns its result with the store it leaves behind. *)
Record store (num : Type) : Type := {
  scene_times_jd : list num;
  passed_object : object num
}.

Definition Script (num A : Type) : Type := store num -> A * store num.

Definition ret {num A} (a : A) : Script num A := fun st => (a, st).

Definition bind {num A B} (m : Script num A) (k : A -> Script num B)
    : Script num B :=
  fun st => let '(a, st') := m st in k a st'.

Notation "v <- m ;; k" := (bind m (fun v => k))
  (at level 61, m at next level, right associativity).

(** [for (const i of l) acc = body(acc, i)]. *)
Fixpoint for_each {num A} (body : A -> nat -> Script num A) (l : list nat)
    (acc : A) : Script num A :=
  match l with
  | [] => ret acc
  | i :: rest => acc' <- body acc i ;; for_each body rest acc'
  end.

Section StoreAccess.

Context {num : Type} `{JSNumber num}.
Local Open Scope js_scope.

(** The reads that the function makes: [obj.elements],
    [scene.times_jd.length], [times[idx]], [obj.x[i]], [obj.y[i]] and
    [obj.z[i]]. *)
Definition read_elements : Script num (option (elements_t num)) :=
  fun st => (elements (passed_object st), st).

Definition read_times_length : Script num nat :=
  fun st => (length (scene_times_jd st), st).

Definition read_time (idx : nat) : Script num num :=
  fun st => (nth idx (scene_times_jd st) (lit 0), st).

Definition read_x (i : nat) : Script num (jsval num) :=
  fun st => (arr_get (x (passed_object st)) i, st).

Definition read_y (i : nat) : Script num (jsval num) :=
  fun st => (arr_get (y (passed_object st)) i, st).

Definition read_z (i : nat) : Script num (jsval num) :=
  fun st => (arr_get (z (passed_object st)) i, st).

(** Lines 444-447, [validIdx.push(i)] being [validIdx ++ [i]]. *)
Definition collect_valid : Script num (list nat) :=
  len <- read_times_length ;;
  for_each (fun validIdx i =>
              xv <- read_x i ;;
              yv <- read_y i ;;
              ret (if not_null xv && not_null yv
                   then validIdx ++ [i] else validIdx))
           (seq 0 len) [].

(** Lines 454-466. *)
Definition accumulate_residuals (a ecc i : num) (samples : list nat)
    : Script num (num * nat) :=
  for_each (fun (acc : num * nat) idx =>
              let '(sqsum, count) := acc in
              jd <- read_time idx ;;
              let '(px, py, pz) :=
                elementsToPosition a ecc i (lit 0) (lit 0) (lit 0)
                                   (lit 2451545.0) (Some jd) in
              xv <- read_x idx ;;
              yv <- read_y idx ;;
              zv <- read_z idx ;;
              let dx := or_zero xv - px in
              let dy := or_zero yv - py in
              let dz := or_zero zv - pz in
              ret (sqsum + (dx * dx + dy * dy + dz * dz), S count))
           samples (lit 0, O).

(** A call [crossValidateElements(obj, numSamples)], statement by
    statement. *)
Definition crossValidateElements_call (numSamples : nat)
    : Script num (option (validation num)) :=
  els <- read_elements ;;
  match els with
  | None => ret None
  | Some el =>
      match truthy_number (a_AU el),
            defined_number (e el), defined_number (i_deg el) with
      | Some a, Some ecc, Some i =>
          valid <- collect_valid ;;
          if (length valid <? 3)%nat then ret None
          else
            let samples := select_samples valid numSamples in
            acc <- accumulate_residuals a ecc i samples ;;
            let '(sqsum, count) := acc in
            match count with
            | O => ret None
            | S _ =>
                let rms :=
                  Math_sqrt (sqsum / lit (inject_Z (Z.of_nat count))) in
                ret (Some {| rms_km := rms; samples := count |})
            end
      | _, _, _ => ret None
      end
  end.

(** Two calls in a row. *)
Definition call_twice (numSamples : nat)
    : Script num (option (validation num) * option (validation num)) :=
  r1 <- crossValidateElements_call numSamples ;;
  r2 <- crossValidateElements_call numSamples ;;
  ret (r1, r2).

End StoreAccess.

(** ** Scenes used in the examples *)

Module Scenario.

Import RealNumber.
Local Open Scope R_scope.

(** A time grid of [len] consecutive days from J2000. *)
Definition daily_grid (len : nat) : list R :=
  map (fun k => 2451545 + INR k) (seq 0 len).

(** An object recorded at every time of a grid of [len] days, at one
    astronomical unit on the x axis, with no [z]. *)
Definition recorded_object (a : R) (len : nat) : object R := {|
  elements := Some {| a_AU := JNum a; e := JNum 0; i_deg := JNum 0 |};
  x := repeat (Some 149597870.7) len;
  y := repeat (Some 0) len;
  z := repeat None len
|}.

(** The same object for [a = 1], with the eccentricity [null]. *)
Definition null_eccentricity_object (len : nat) : object R := {|
  elements := Some {| a_AU := JNum 1; e := JNull; i_deg := JNum 0 |};
  x := repeat (Some 149597870.7) len;
  y := repeat (Some 0) len;
  z := repeat None len
|}.

End Scenario.

(** A scene in binary64: three days from J2000 and an object recorded on
    each of them, at one astronomical unit on the x axis, whose semi-major
    axis is negative. *)
Module FloatScenario.

Definition three_days : list float :=
  [2451545%float; 2451546%float; 2451547%float].

Definition negative_axis_object : object float := {|
  elements := Some {| a_AU := JNum (-1)%float; e := JNum 0%float;
                      i_deg := JNum 0%float |};
  x := repeat (Some 0x1.1d55d5d666666p+27%float) 3;
  y := repeat (Some 0%float) 3;
  z := repeat None 3
|}.

End FloatScenario.

(** ** The reference pipeline, over the reals *)

Module Pipeline.

Import RealNumber.
Local Open Scope R_scope.
Local Abbreviation sqrt := R_sqrt.sqrt.

Definition vec3 : Type := R * R * R.

(** A matrix, by rows. *)
Definition mat3 : Type := vec3 * vec3 * vec3.

Definition dot (u v : vec3) : R :=
  let '(u1, u2, u3) := u in
  let '(v1, v2, v3) := v in
  u1 * v1 + u2 * v2 + u3 * v3.

Definition mat_vec (m : mat3) (v : vec3) : vec3 :=
  let '(r1, r2, r3) := m in (dot r1 v, dot r2 v, dot r3 v).

Definition columns (m : mat3) : mat3 :=
  let '((a11, a12, a13), (a21, a22, a23), (a31, a32, a33)) := m in
  ((a11, a21, a31), (a12, a22, a32), (a13, a23, a33)).

Definition mat_mul (m n : mat3) : mat3 :=
  let '(r1, r2, r3) := m in
  let '(c1, c2, c3) := columns n in
  ((dot r1 c1, dot r1 c2, dot r1 c3),
   (dot r2 c1, dot r2 c2, dot r2 c3),
   (dot r3 c1, dot r3 c2, dot r3 c3)).

(** The rotation of the frame about its z axis by the angle [t], in the
    convention of astrodynamics: the coordinates of a fixed vector in the
    frame turned by [t]. *)
Definition Rz (t : R) : mat3 :=
  ((cos t, sin t, 0), (- sin t, cos t, 0), (0, 0, 1)).

(** The rotation of the frame about its x axis. *)
Definition Rx (t : R) : mat3 :=
  ((1, 0, 0), (0, cos t, sin t), (0, - sin t, cos t)).

Definition radians (deg : R) : R := deg * PI / 180.

(** The pipeline of the specification, step by step. *)
Definition reference_position
    (a ecc i_deg Omega_deg omega_deg M_deg epochJD : R) (targetJD : option R)
    : vec3 :=
  let a_km := a * 149597870.7 in
  let n := sqrt (1.32712440018e11 / a_km ^ 3) in
  let M :=
    match targetJD with
    | Some targetJD => radians M_deg + n * (targetJD - epochJD) * 86400
    | None => radians M_deg
    end in
  let E := solveKepler M ecc default_tol default_maxiter in
  let nu := Ratan2 (sqrt (1 - ecc ^ 2) * sin E) (cos E - ecc) in
  let r := a_km * (1 - ecc * cos E) in
  mat_vec (mat_mul (Rz (- radians Omega_deg))
                   (mat_mul (Rx (- radians i_deg)) (Rz (- radians omega_deg))))
          (r * cos nu, r * sin nu, 0).

(** The Euclidean norm. *)
Definition norm3 (v : vec3) : R :=
  let '(v1, v2, v3) := v in sqrt (v1 ^ 2 + v2 ^ 2 + v3 ^ 2).

(** The orbital period [2 PI / n], converted from seconds to days. *)
Definition period_days (a : R) : R :=
  2 * PI / mean_motion (a * AU_KM) / 86400.

(** The Newton-Raphson update in the words of the specification. *)
Definition newton_update (ecc M E : R) : R :=
  E - (E - ecc * sin E - M) / (1 - ecc * cos E).

End Pipeline.

(** ** The viewer: the objects of the scene *)

(** An object of [scene.objects] with the fields that the cross-validation
    of one object does not read: [o.id] and [o.class]. *)
Module Scene.

Record entry (num : Type) : Type := {
  id : String.string;
  class : String.string;
  body : object num
}.

End Scene.

(** An element of the array [results] of [crossValidateAll]. *)
Module Report.

Record entry (num : Type) : Type := {
  id : String.string;
  class : String.string;
  rms_km : num;
  samples : nat
}.

End Report.

Section Viewer.

Context {num : Type} `{JSNumber num}.

(** *** [crossValidateAll] (lines 473-494) *)

(** The element that line 480 pushes. *)
Definition report_of (obj : Scene.entry num) (res : validation num)
    : Report.entry num :=
  {| Report.id := Scene.id obj;
     Report.class := Scene.class obj;
     Report.rms_km := rms_km res;
     Report.samples := samples res |}.

(** The loop of lines 476-484 on the variables [results] and [examined]:
    an object without elements is skipped by [continue], before the test of
    the limit. *)
Fixpoint crossValidateAll_loop (times : list num) (limit : nat)
    (objects : list (Scene.entry num)) (results : list (Report.entry num))
    (examined : nat) : list (Report.entry num) :=
  match objects with
  | [] => results
  | obj :: rest =>
      match elements (Scene.body obj) with
      | None => crossValidateAll_loop times limit rest results examined
      | Some _ =>
          let '(results', examined') :=
            match crossValidateElements times (Scene.body obj) 6 with
            | Some res => (results ++ [report_of obj res], S examined)
            | None => (results, examined)
            end in
          if (limit <=? examined')%nat then results'
          else crossValidateAll_loop times limit rest results' examined'
      end
  end.

(** The array [results] that [crossValidateAll(limit)] logs and
    summarises. *)
Definition crossValidateAll (times : list num)
    (objects : list (Scene.entry num)) (limit : nat)
    : list (Report.entry num) :=
  crossValidateAll_loop times limit objects [] 0.

(** The reports of all the objects that validate, in the order of the
    scene. *)
Definition validated (times : list num) (objects : list (Scene.entry num))
    : list (Report.entry num) :=
  flat_map (fun obj =>
              match crossValidateElements times (Scene.body obj) 6 with
              | Some res => [report_of obj res]
              | None => []
              end) objects.

(** The first object of the scene that has elements. *)
Definition first_with_elements (objects : list (Scene.entry num))
    : option (Scene.entry num) :=
  find (fun obj => match elements (Scene.body obj) with
                   | Some _ => true
                   | None => false
                   end) objects.

End Viewer.

(** *** [shuffleArray] (lines 143-148) *)

(** [a[i] = v] on an index of the array. *)
Fixpoint assign {A : Type} (a : list A) (i : nat) (v : A) : list A :=
  match a, i with
  | [], _ => []
  | _ :: rest, O => v :: rest
  | u :: rest, S i' => u :: assign rest i' v
  end.

(** [[a[i], a[j]] = [a[j], a[i]]] for two indices of the array: the right
    side is read first, then [a[i]] and [a[j]] are assigned. *)
Definition swap {A : Type} (a : list A) (i j : nat) : list A :=
  match nth_error a i, nth_error a j with
  | Some ai, Some aj => assign (assign a i aj) j ai
  | _, _ => a
  end.

(** The loop [for (i = a.length - 1; i > 0; i--)], from [i] down.
    [draw i] is the index [Math.floor(Math.random() * (i + 1))] that the
    iteration [i] draws. *)
Fixpoint shuffle_from {A : Type} (draw : nat -> nat) (i : nat) (a : list A)
    : list A :=
  match i with
  | O => a
  | S i' => shuffle_from draw i' (swap a i (draw i))
  end.

Definition shuffleArray {A : Type} (draw : nat -> nat) (a : list A) : list A :=
  shuffle_from draw (length a - 1) a.

(** *** The set [activeObjects] and [onClassToggle] (lines 72, 126-140) *)

(** A [Set] of identifiers, in insertion order. *)
Definition set_has (s : list String.string) (v : String.string) : bool :=
  existsb (String.eqb v) s.

Definition set_add (s : list String.string) (v : String.string)
    : list String.string :=
  if set_has s v then s else s ++ [v].

Definition set_delete (s : list String.string) (v : String.string)
    : list String.string :=
  filter (fun w => negb (String.eqb v w)) s.

(** Line 136: [Math.max(1, Math.floor(arr.length * frac))], the product
    being exact. *)
Definition keep_count (len : nat) (frac : Q) : nat :=
  Z.to_nat (Z.max 1 (Qfloor (inject_Z (Z.of_nat len) * frac))).

(** [onClassToggle(cls, checked)] on the set [activeObjects]: [group] is
    [objectsByClass[cls]] and [frac] the fraction of the class, 1 when
    [clsSubsampleFrac[cls]] is undefined. *)
Definition onClassToggle {num : Type} (draw : nat -> nat)
    (group : list (Scene.entry num)) (frac : Q) (checked : bool)
    (activeObjects : list String.string) : list String.string :=
  if negb checked then
    fold_left (fun s o => set_delete s (Scene.id o)) group activeObjects
  else
    let arr := shuffleArray draw group in
    let nKeep := keep_count (length arr) frac in
    fold_left (fun s o => set_add s (Scene.id o)) (firstn nKeep arr)
              activeObjects.

(** An object of the array has the identifier [w]. *)
Definition has_id {num : Type} (group : list (Scene.entry num))
    (w : String.string) : bool :=
  existsb (fun o => String.eqb w (Scene.id o)) group.

(** Lines 221-225 of [redrawBodies]: the objects that are drawn. *)
Definition drawObjs {num : Type} (MAX_VISIBLE_BODIES : nat)
    (objects : list (Scene.entry num)) (activeObjects : list String.string)
    : list (Scene.entry num) :=
  firstn MAX_VISIBLE_BODIES
         (filter (fun o => set_has activeObjects (Scene.id o)) objects).

(** *** [initUI]: the objects by class (lines 75-79) *)

(** The names of the properties that [objectsByClass = {}] inherits from
    [Object.prototype] (ECMAScript 2023, 20.1.3). Under such a name
    [objectsByClass[name]] is a function, or the prototype itself for
    [__proto__]: a truthy value that has no method [push]. *)
Module ObjectPrototype.

Import String.
Local Open Scope string_scope.

Definition names : list string :=
  ["constructor"; "hasOwnProperty"; "isPrototypeOf"; "propertyIsEnumerable";
   "toLocaleString"; "toString"; "valueOf"; "__proto__";
   "__defineGetter__"; "__defineSetter__";
   "__lookupGetter__"; "__lookupSetter__"].

End ObjectPrototype.

Definition inherited (cls : String.string) : bool :=
  existsb (String.eqb cls) ObjectPrototype.names.

(** The own properties of [objectsByClass], a JavaScript object used as a
    map: the list of its keys with their arrays, in insertion order. *)
Fixpoint group_get {num : Type}
    (m : list (String.string * list (Scene.entry num))) (cls : String.string)
    : option (list (Scene.entry num)) :=
  match m with
  | [] => None
  | (k, arr) :: rest => if String.eqb cls k then Some arr else group_get rest cls
  end.

(** [if (!m[o.class]) m[o.class] = []; m[o.class].push(o)] on the own
    properties. *)
Fixpoint group_push {num : Type}
    (m : list (String.string * list (Scene.entry num))) (o : Scene.entry num)
    : list (String.string * list (Scene.entry num)) :=
  match m with
  | [] => [(Scene.class o, [o])]
  | (k, arr) :: rest =>
      if String.eqb (Scene.class o) k then (k, arr ++ [o]) :: rest
      else (k, arr) :: group_push rest o
  end.

(** Lines 77-78 for one object. When the class is no own key but the name
    of an inherited property, the test of line 77 finds a truthy value and
    assigns nothing, and the call of [push] at line 78 throws a TypeError:
    [None]. *)
Definition initUI_step {num : Type}
    (m : option (list (String.string * list (Scene.entry num))))
    (o : Scene.entry num)
    : option (list (String.string * list (Scene.entry num))) :=
  match m with
  | None => None
  | Some m =>
      match group_get m (Scene.class o) with
      | Some _ => Some (group_push m o)
      | None =>
          if inherited (Scene.class o) then None else Some (group_push m o)
      end
  end.

(** No own key is the name of an inherited property. *)
Definition plain_keys {num : Type}
    (m : list (String.string * list (Scene.entry num))) : Prop :=
  forall cls arr, group_get m cls = Some arr -> inherited cls = false.

(** The loop of lines 75-79; [None] when it throws. *)
Definition objectsByClass {num : Type} (objects : list (Scene.entry num))
    : option (list (String.string * list (Scene.entry num))) :=
  fold_left initUI_step objects (Some []).

(** The objects of a class, in the order of the scene. *)
Definition of_class {num : Type} (cls : String.string)
    (objects : list (Scene.entry num)) : list (Scene.entry num) :=
  filter (fun o => String.eqb cls (Scene.class o)) objects.

(** *** The subsample fraction of a class (lines 103-107) *)

Module FloatMath.

(** [Math.max] and [Math.min] of two Numbers: NaN when an argument is NaN,
    and [-0] below [+0]. *)
Definition Math_max (a b : float) : float :=
  if PrimFloat.is_nan a || PrimFloat.is_nan b then PrimFloat.nan
  else if PrimFloat.ltb a b then b
  else if PrimFloat.ltb b a then a
  else if PrimFloat.get_sign a then b else a.

Definition Math_min (a b : float) : float :=
  if PrimFloat.is_nan a || PrimFloat.is_nan b then PrimFloat.nan
  else if PrimFloat.ltb a b then a
  else if PrimFloat.ltb b a then b
  else if PrimFloat.get_sign a then a else b.

(** Line 106: [Math.max(0, Math.min(1, isNaN(val) ? 1 : val))], where [val]
    is the Number read from the input field. *)
Definition subsample_fraction (val : float) : float :=
  Math_max 0%float
           (Math_min 1%float (if PrimFloat.is_nan val then 1%float else val)).

End FloatMath.

(** *** The time index (lines 289-291, 327-339) *)

(** Line 291 of [updateScene]:
    [Math.floor(Math.max(0, Math.min(index, scene.times_jd.length - 1)))],
    on a rational index, [len] being [scene.times_jd.length]. *)
Definition updateScene_index (len : nat) (index : Q) : Z :=
  Qfloor (Qmax 0 (Qmin index (inject_Z (Z.of_nat len - 1)))).

(** A tick of the timer of [startTimer] on the global [tIndex], lines
    332-336, for a speed and a time index that are integers: the step, the
    wrap to 0 and the index that [updateScene] stores. The step and the sum
    are then halves of integers, which binary64 represents exactly below
    [2^52]: for [len + speed <= 2^52] the multiplication and the addition of
    lines 332-333 round nothing, and the rational arithmetic is the
    script's. For other speeds the addition of line 333 may round, and the
    definition does not apply. *)
Definition timer_tick (speed : Z) (len : nat) (tIndex : Z) : Z :=
  let step := (0.5 * inject_Z speed)%Q in
  let tIndex := (inject_Z tIndex + step)%Q in
  let tIndex := if Qle_bool (inject_Z (Z.of_nat len)) tIndex then 0%Q
                else tIndex in
  updateScene_index len tIndex.

(** *** The trail of an object (lines 237-245) *)

Section Trail.

Context {num : Type}.

Variables xs ys : list (option num).

(** The test of lines 240-242 at the index [k]: the point is kept. *)
Definition trail_keeps (k : nat) : bool :=
  (k <? length xs)%nat && not_null (arr_get xs k) && not_null (arr_get ys k).

(** The loop [for (k = ...; k <= tIndex; k += TRAIL_POINT_STEP)] from [k],
    with the indices of the points that it pushes; [fuel] bounds the number
    of iterations. *)
Fixpoint trail_loop (tIndex step fuel k : nat) : list nat :=
  match fuel with
  | O => []
  | S fuel' =>
      if (k <=? tIndex)%nat then
        (if trail_keeps k then [k] else [])
          ++ trail_loop tIndex step fuel' (k + step)
      else []
  end.

(** The indices of [pts] for an integer [tIndex], with
    [TRAIL_LENGTH] and [TRAIL_POINT_STEP] as parameters; the loop starts at
    [Math.max(0, tIndex - TRAIL_LENGTH * TRAIL_POINT_STEP)]. With a step of
    at least 1 it makes at most [tIndex + 1] iterations. *)
Definition trail_points (tIndex TRAIL_LENGTH TRAIL_POINT_STEP : nat)
    : list nat :=
  trail_loop tIndex TRAIL_POINT_STEP (S tIndex)
             (tIndex - TRAIL_LENGTH * TRAIL_POINT_STEP).

End Trail.

(** *** The view: [worldToScreenLog] and [resetView] (lines 153-202), over
    the reals *)

Module View.

Import RealNumber.
Local Open Scope R_scope.
Local Abbreviation sqrt := R_sqrt.sqrt.

(** The object [view]. *)
Record view_t : Type := {
  min_r : R;
  max_r : R;
  min_logr : R;
  max_logr : R
}.

(** [Math.log10]. *)
Definition log10 (v : R) : R := ln v / ln 10.

(** Line 187: [Math.max(1, Math.floor(o.x.length / 500))]. *)
Definition extent_stride (len : nat) : nat := Nat.max 1 (len / 500).

(** Lines 188-193 on the variables [(minr, maxr)], [None] being the
    [Infinity] that [minr] starts from. [xx] is a number or [null]; [yy] is
    taken to be one too, the arrays of an object having one length. *)
Definition extent_step (xs ys : list (option R)) (acc : option R * R)
    (i : nat) : option R * R :=
  match arr_get xs i, arr_get ys i with
  | JNum xx, JNum yy =>
      let r := sqrt (xx * xx + yy * yy) in
      (Some (match fst acc with
             | Some minr => Rmin minr r
             | None => r
             end),
       Rmax (snd acc) r)
  | _, _ => acc
  end.

(** The loop [for (i = 0; i < o.x.length; i += stride)] from [i]; [fuel]
    bounds the number of iterations, and [o.x.length] of them are enough. *)
Fixpoint extent_loop (xs ys : list (option R)) (stride fuel i : nat)
    (acc : option R * R) : option R * R :=
  match fuel with
  | O => acc
  | S fuel' =>
      if (i <? length xs)%nat
      then extent_loop xs ys stride fuel' (i + stride) (extent_step xs ys acc i)
      else acc
  end.

(** The body of [scene.objects.forEach] at lines 186-195. *)
Definition extent_of_object (acc : option R * R) (o : Scene.entry R)
    : option R * R :=
  let xs := x (Scene.body o) in
  let ys := y (Scene.body o) in
  extent_loop xs ys (extent_stride (length xs)) (length xs) 0 acc.

(** [resetView], lines 183-202: the extents stored in [view]. [eps] is
    [DEFAULTS.LOG_RADIAL_EPS]. *)
Definition resetView (eps : R) (objects : list (Scene.entry R)) : view_t :=
  let '(minr, maxr) := fold_left extent_of_object objects (None, 0) in
  let '(minr, maxr) :=
    match minr with
    | None => (0, 1)
    | Some minr => (minr, maxr)
    end in
  let minr := Rmax minr 1e-6 in
  let view_min_r := minr in
  let view_max_r := Rmax maxr (minr * 1.0001) in
  {| min_r := view_min_r;
     max_r := view_max_r;
     min_logr := log10 (view_min_r + eps);
     max_logr := log10 (view_max_r + eps) |}.

(** [worldToScreenLog(x, y, maxRadiusPixels)], lines 153-167, with the
    centre [(cx, cy)] of the drawing. *)
Definition worldToScreenLog (view : view_t) (eps cx cy : R)
    (wx wy maxRadiusPixels : R) : R * R :=
  let r := sqrt (wx * wx + wy * wy) in
  let logr := log10 (r + eps) in
  let s := (logr - min_logr view)
           / (max_logr view - min_logr view + 1e-12) in
  let radial_px := s * maxRadiusPixels in
  let theta := Ratan2 wy wx in
  let px := cx + radial_px * cos theta in
  let py := cy + radial_px * sin theta in
  (px, py).

(** The radius of the sample of an object at an index, when it has one. *)
Definition sample_radius (o : Scene.entry R) (i : nat) : option R :=
  match arr_get (x (Scene.body o)) i, arr_get (y (Scene.body o)) i with
  | JNum xx, JNum yy => Some (sqrt (xx * xx + yy * yy))
  | _, _ => None
  end.

(** The extents grow: the largest radius never decreases, and once there is
    a smallest radius there remains one, not larger. *)
Definition widens (acc acc' : option R * R) : Prop :=
  snd acc <= snd acc' /\
  forall m, fst acc = Some m -> exists m', fst acc' = Some m' /\ m' <= m.

(** The extents cover the radius [r]. *)
Definition covers (acc : option R * R) (r : R) : Prop :=
  r <= snd acc /\ exists m, fst acc = Some m /\ m <= r.

(** The arrays [x] and [y] of an object have one length, as the scene file
    has them: [o.y[i]] is then a number or [null] wherever [o.x[i]] is. *)
Definition same_length (o : Scene.entry R) : Prop :=
  length (x (Scene.body o)) = length (y (Scene.body o)).

(** The distance of two points of the screen. *)
Definition screen_distance (p q : R * R) : R :=
  sqrt ((fst p - fst q) ^ 2 + (snd p - snd q) ^ 2).

End View.

(** *** A scene of two objects *)

Module SceneScenario.

Import String.
Import RealNumber Scenario.
Local Open Scope string_scope.

(** Two objects recorded on three days, of two classes. *)
Definition earth : Scene.entry R := {|
  Scene.id := "earth";
  Scene.class := "planet";
  Scene.body := recorded_object 1 3
|}.

Definition ceres : Scene.entry R := {|
  Scene.id := "ceres";
  Scene.class := "asteroid";
  Scene.body := recorded_object 2.77 3
|}.

Definition scene_objects : list (Scene.entry R) := [earth; ceres].

(** An object whose class is the name of a property that every object
    inherits. *)
Definition vesta : Scene.entry R := {|
  Scene.id := "vesta";
  Scene.class := "constructor";
  Scene.body := recorded_object 2.36 3
|}.

(** A random generator whose [Math.random()] is always 0. *)
Definition first_draw (i : nat) : nat := 0.

End SceneScenario.

(** * Properties *)

Section LoopProperties.

Context {num : Type} `{JSNumber num}.
Local Open Scope js_scope.

Variables ecc M tol : num.

Lemma newton_iterate_S k E :
  newton_iterate ecc M (S k) E
  = newton_iterate ecc M k E + newton_delta ecc M (newton_iterate ecc M k E).
Proof.
  revert E. induction k as [|k IH]; intro E.
  - reflexivity.
  - change (newton_iterate ecc M (S (S k)) E)
      with (newton_iterate ecc M (S k) (E + newton_delta ecc M E)).
    rewrite IH. reflexivity.
Qed.

Lemma small_update_shift E j :
  small_update ecc M tol (E + newton_delta ecc M E) j
  = small_update ecc M tol E (S j).
Proof. reflexivity. Qed.

(** The loop returns an iterate: the first one whose update was small, or
    the last one the cap allows. *)
Lemma newton_loop_iterate maxiter : forall E,
  exists k,
    k <= maxiter /\
    newton_loop ecc M tol maxiter E = newton_iterate ecc M k E /\
    (forall j, S j < k -> small_update ecc M tol E j = false) /\
    (k < maxiter -> exists j, k = S j /\ small_update ecc M tol E j = true).
Proof.
  induction maxiter as [|n IH]; intro E.
  - exists 0. split; [lia|]. split; [reflexivity|]. split; intros; lia.
  - simpl. destruct (Math_abs (newton_delta ecc M E) <? tol) eqn:Hsmall.
    + exists 1. split; [lia|]. split; [reflexivity|]. split.
      * intros j Hj. lia.
      * intros _. exists 0. split; [reflexivity | exact Hsmall].
    + destruct (IH (E + newton_delta ecc M E)) as (k & Hk & Heq & Hbefore & Hstop).
      exists (S k). split; [lia|]. split; [exact Heq|]. split.
      * intros [|j] Hj; [exact Hsmall|].
        rewrite <- small_update_shift. apply Hbefore. lia.
      * intros Hlt. destruct Hstop as (j & -> & Hj); [lia|].
        exists (S j). split; [reflexivity|].
        rewrite <- small_update_shift. exact Hj.
Qed.

(** From the test at iteration [i] the loop returns after at most
    [maxiter - i + 1] transitions, with the value of [newton_loop]. *)
Lemma loop_steps_newton_loop maxiter : forall remaining i E,
  (i + remaining)%nat = maxiter ->
  exists n,
    n <= S remaining /\
    loop_steps ecc M tol maxiter n (Running i E)
               (Returned (newton_loop ecc M tol remaining E)).
Proof.
  induction remaining as [|r IH]; intros i E Hi.
  - exists 1. split; [lia|].
    eapply steps_S; [apply step_cap; lia | apply steps_O].
  - simpl. destruct (Math_abs (newton_delta ecc M E) <? tol) eqn:Hsmall.
    + exists 1. split; [lia|].
      eapply steps_S; [apply step_break; [lia | exact Hsmall] | apply steps_O].
    + destruct (IH (S i) (E + newton_delta ecc M E)) as (n & Hn & Hsteps); [lia|].
      exists (S n). split; [lia|].
      eapply steps_S; [apply step_next; [lia | exact Hsmall] | exact Hsteps].
Qed.

Lemma loop_step_deterministic maxiter s s1 s2 :
  loop_step ecc M tol maxiter s s1 ->
  loop_step ecc M tol maxiter s s2 ->
  s1 = s2.
Proof.
  intros H1 H2.
  inversion H1; subst; inversion H2; subst;
    try reflexivity; try lia; congruence.
Qed.

Lemma returned_is_final maxiter E s :
  ~ loop_step ecc M tol maxiter (Returned E) s.
Proof. intro Hs. inversion Hs. Qed.

End LoopProperties.

Section TransitionBound.

Context {num : Type} `{JSNumber num}.

Variables ecc M tol : num.
Variable maxiter : nat.

(** No execution of the loop is longer than the iterations left, plus the
    final test. *)
Lemma loop_steps_bounded : forall n s s',
  loop_steps ecc M tol maxiter n s s' ->
  match s with
  | Running i _ => n <= S (maxiter - i)
  | Returned _ => n = 0
  end.
Proof.
  intros n s s' Hsteps.
  induction Hsteps as [s | n s1 s2 s3 Hstep Hrest IH].
  - destruct s; [lia | reflexivity].
  - destruct Hstep; lia.
Qed.

End TransitionBound.

(** C8. Whatever numbers they are given, also a semi-major axis that is not
    positive or an eccentricity outside [0, 1), [solveKepler] and
    [elementsToPosition] return numbers and raise nothing: the loop of the
    solver reaches its [return] in at most [maxiter + 1] transitions, no
    execution of it is longer, and the propagator yields three coordinates.
    This holds for every implementation of the Number operations, so also
    for binary64 with its NaN and infinities. *)
Theorem propagator_never_raises :
  forall (num : Type) (N : JSNumber num) (M ecc tol : num) (maxiter : nat),
    (exists n,
        n <= S maxiter /\
        loop_steps ecc (normalize_angle M) tol maxiter n (loop_entry M ecc)
                   (Returned (solveKepler M ecc tol maxiter))) /\
    (forall n s,
        loop_steps ecc (normalize_angle M) tol maxiter n (loop_entry M ecc) s ->
        n <= S maxiter) /\
    (forall a i_deg Omega_deg omega_deg M_deg epochJD targetJD,
        exists px py pz,
          elementsToPosition a ecc i_deg Omega_deg omega_deg M_deg epochJD
                             targetJD = (px, py, pz)).
Proof.
  intros num N M ecc tol maxiter. split; [|split].
  - unfold solveKepler, loop_entry.
    apply loop_steps_newton_loop. reflexivity.
  - intros n s Hsteps.
    apply loop_steps_bounded in Hsteps. unfold loop_entry in Hsteps. lia.
  - intros a i_deg Omega_deg omega_deg M_deg epochJD targetJD.
    unfold elementsToPosition. do 3 eexists. reflexivity.
Qed.

(** ** Sample selection *)

Lemma pick_samples_all (valid : list nat) (step : nat) : forall remaining j,
  j + (remaining - 1) * step < length valid ->
  length (pick_samples valid step remaining j) = remaining.
Proof.
  induction remaining as [|r IH]; intros j Hj.
  - reflexivity.
  - simpl. destruct (nth_error valid j) as [idx|] eqn:Hnth.
    + simpl. destruct r as [|r'].
      * reflexivity.
      * rewrite IH; [reflexivity|].
        simpl in Hj |- *. rewrite Nat.sub_0_r in *. lia.
    + apply nth_error_None in Hnth. simpl in Hj. lia.
Qed.

Lemma pick_samples_unit_step (valid : list nat) : forall remaining j,
  length valid - j <= remaining ->
  length (pick_samples valid 1 remaining j) = length valid - j.
Proof.
  induction remaining as [|r IH]; intros j Hj.
  - simpl. lia.
  - simpl. destruct (nth_error valid j) as [idx|] eqn:Hnth.
    + assert (j < length valid) by (apply nth_error_Some; congruence).
      simpl. rewrite IH; lia.
    + apply nth_error_None in Hnth. simpl. lia.
Qed.

Lemma pick_samples_nth (valid : list nat) (step : nat) : forall remaining j k,
  k < length (pick_samples valid step remaining j) ->
  nth_error (pick_samples valid step remaining j) k
  = nth_error valid (j + k * step).
Proof.
  induction remaining as [|r IH]; intros j k Hk.
  - simpl in Hk. lia.
  - simpl in Hk |- *. destruct (nth_error valid j) as [idx|] eqn:Hnth.
    + destruct k as [|k'].
      * simpl. rewrite Nat.add_0_r. symmetry. exact Hnth.
      * simpl in Hk |- *. rewrite IH by lia. f_equal. lia.
    + simpl in Hk. lia.
Qed.

Lemma sample_step_pos validCount numSamples :
  1 <= sample_step validCount numSamples.
Proof. unfold sample_step. lia. Qed.

(** The stride times the number of samples fits in the valid range, as soon
    as the range has that many positions. *)
Lemma sample_step_fits validCount numSamples :
  1 <= numSamples -> numSamples <= validCount ->
  sample_step validCount numSamples = validCount / numSamples /\
  numSamples * sample_step validCount numSamples
  + validCount mod numSamples = validCount.
Proof.
  intros Hn Hv. unfold sample_step.
  assert (Hq : 1 <= validCount / numSamples).
  { apply Nat.div_le_lower_bound; lia. }
  rewrite Nat.max_r by exact Hq. split; [reflexivity|].
  symmetry. apply Nat.div_mod_eq.
Qed.

Lemma sample_step_short validCount numSamples :
  validCount < numSamples -> sample_step validCount numSamples = 1.
Proof.
  intros Hlt. unfold sample_step.
  rewrite Nat.div_small by exact Hlt. reflexivity.
Qed.

(** Exactly [min numSamples validCount] samples are selected. *)
Lemma select_samples_length (valid : list nat) (numSamples : nat) :
  length (select_samples valid numSamples)
  = Nat.min numSamples (length valid).
Proof.
  unfold select_samples.
  destruct numSamples as [|n]; [reflexivity|].
  destruct (Nat.le_gt_cases (S n) (length valid)) as [Hle | Hgt].
  - rewrite Nat.min_l by exact Hle.
    apply pick_samples_all.
    destruct (sample_step_fits (validCount := length valid) (numSamples := S n))
      as [_ Hfit]; [lia | exact Hle |].
    pose proof (sample_step_pos (length valid) (S n)) as Hpos.
    simpl in Hfit |- *. rewrite Nat.sub_0_r. nia.
  - rewrite Nat.min_r by lia.
    rewrite sample_step_short by exact Hgt.
    rewrite pick_samples_unit_step by lia. lia.
Qed.

Lemma select_samples_nth (valid : list nat) (numSamples k : nat) :
  k < length (select_samples valid numSamples) ->
  nth_error (select_samples valid numSamples) k
  = nth_error valid (k * sample_step (length valid) numSamples).
Proof.
  intros Hk. unfold select_samples in *.
  rewrite pick_samples_nth by exact Hk. reflexivity.
Qed.

(** *** Chronological order *)

Lemma increasing_seq : forall len start, increasing (seq start len).
Proof.
  induction len as [|len IH]; intro start; simpl.
  - constructor.
  - constructor; [apply IH|].
    apply Forall_forall. intros v Hv. apply in_seq in Hv. unfold Nat.lt. lia.
Qed.

Lemma increasing_filter (f : nat -> bool) : forall l,
  increasing l -> increasing (filter f l).
Proof.
  induction l as [|v l IH]; intro Hl; simpl.
  - constructor.
  - inversion Hl as [|? ? Htail Hhead]; subst.
    destruct (f v).
    + constructor; [apply IH; exact Htail|].
      rewrite Forall_forall in Hhead |- *.
      intros w Hw. apply filter_In in Hw. apply Hhead, Hw.
    + apply IH. exact Htail.
Qed.

Lemma increasing_nth : forall l p q u w,
  increasing l ->
  nth_error l p = Some u -> nth_error l q = Some w ->
  p < q -> u < w.
Proof.
  induction l as [|v l IH]; intros p q u w Hl Hp Hq Hlt.
  - destruct p; discriminate.
  - inversion Hl as [|? ? Htail Hhead]; subst.
    destruct q as [|q']; [lia|]. simpl in Hq.
    destruct p as [|p'].
    + simpl in Hp. injection Hp as <-.
      rewrite Forall_forall in Hhead.
      apply Hhead. eapply nth_error_In. exact Hq.
    + simpl in Hp. eapply IH; eauto. lia.
Qed.

Lemma pick_samples_In (valid : list nat) (step : nat) : forall remaining j v,
  In v (pick_samples valid step remaining j) ->
  exists p, j <= p /\ nth_error valid p = Some v.
Proof.
  induction remaining as [|r IH]; intros j v Hin.
  - contradiction.
  - simpl in Hin. destruct (nth_error valid j) as [idx|] eqn:Hnth.
    + destruct Hin as [<- | Hin].
      * exists j. split; [lia | exact Hnth].
      * apply IH in Hin. destruct Hin as (p & Hp & Hv).
        exists p. split; [lia | exact Hv].
    + contradiction.
Qed.

Lemma increasing_pick_samples (valid : list nat) (step : nat) :
  increasing valid -> 1 <= step ->
  forall remaining j, increasing (pick_samples valid step remaining j).
Proof.
  intros Hvalid Hstep.
  induction remaining as [|r IH]; intro j; simpl.
  - constructor.
  - destruct (nth_error valid j) as [idx|] eqn:Hnth.
    + constructor; [apply IH|].
      apply Forall_forall. intros v Hv.
      apply pick_samples_In in Hv. destruct Hv as (p & Hp & Hv).
      eapply increasing_nth; eauto. lia.
    + constructor.
Qed.

Lemma select_samples_In (valid : list nat) (numSamples v : nat) :
  In v (select_samples valid numSamples) -> In v valid.
Proof.
  intros Hin. apply pick_samples_In in Hin.
  destruct Hin as (p & _ & Hp). eapply nth_error_In. exact Hp.
Qed.

(** ** Cross-validation *)

Section CrossValidation.

Context {num : Type} `{JSNumber num}.
Local Open Scope js_scope.

Variable times : list num.
Variable obj : object num.

Lemma increasing_validIdx : increasing (validIdx times obj).
Proof. unfold validIdx. apply increasing_filter, increasing_seq. Qed.

Lemma validIdx_in_range idx :
  In idx (validIdx times obj) -> (idx < length times)%nat.
Proof.
  unfold validIdx. intros Hin. apply filter_In in Hin.
  destruct Hin as [Hin _]. apply in_seq in Hin. lia.
Qed.

(** A valid index has a non-null [x] and [y]. *)
Lemma validIdx_not_null idx :
  In idx (validIdx times obj) ->
  arr_get (x obj) idx <> JNull /\ arr_get (y obj) idx <> JNull.
Proof.
  unfold validIdx. intros Hin. apply filter_In in Hin.
  destruct Hin as [_ Hok]. apply andb_prop in Hok. destruct Hok as [Hx Hy].
  split; intro Hnull; [rewrite Hnull in Hx | rewrite Hnull in Hy];
    discriminate.
Qed.

(** Filtering the indices of a list by the element they point to counts the
    elements that pass the filter. *)
Lemma filter_indices_length {A : Type} (p : A -> bool) : forall l start,
  length (filter (fun k => match nth_error l (k - start) with
                           | Some v => p v
                           | None => false
                           end)
                 (seq start (length l)))
  = length (filter p l).
Proof.
  induction l as [|v l IH]; intro start.
  - reflexivity.
  - cbn [length seq filter]. rewrite Nat.sub_diag. cbn [nth_error].
    assert (Hrest :
      filter (fun k => match nth_error (v :: l) (k - start) with
                       | Some w => p w
                       | None => false
                       end) (seq (S start) (length l))
      = filter (fun k => match nth_error l (k - S start) with
                         | Some w => p w
                         | None => false
                         end) (seq (S start) (length l))).
    { apply filter_ext_in. intros k Hk. apply in_seq in Hk.
      replace (k - start)%nat with (S (k - S start)) by lia. reflexivity. }
    rewrite Hrest. destruct (p v); cbn [length]; rewrite IH; reflexivity.
Qed.

(** On aligned arrays the valid indices are as many as the recorded samples
    with a non-null [x] and [y]. *)
Lemma valid_count_aligned :
  aligned times obj ->
  valid_count times obj = length (recorded_samples obj).
Proof.
  intros [Hx Hy]. unfold valid_count, validIdx, recorded_samples.
  assert (Hlen : length times = length (combine (x obj) (y obj))).
  { rewrite length_combine, Hx, Hy. lia. }
  rewrite Hlen, <- (filter_indices_length has_xy _ 0).
  f_equal. apply filter_ext_in. intros k Hk. apply in_seq in Hk.
  rewrite Nat.sub_0_r. unfold arr_get.
  rewrite <- Hlen in Hk.
  destruct (nth_error (x obj) k) as [xv|] eqn:Hxk;
    [|apply nth_error_None in Hxk; lia].
  destruct (nth_error (y obj) k) as [yv|] eqn:Hyk;
    [|apply nth_error_None in Hyk; lia].
  assert (Hxy : nth_error (combine (x obj) (y obj)) k = Some (xv, yv)).
  { revert Hxk Hyk. generalize (x obj) (y obj) k. clear.
    induction l as [|u l IH]; intros [|w l'] [|k] Hu Hw;
      try discriminate.
    - simpl in *. congruence.
    - simpl in *. apply IH; assumption. }
  rewrite Hxy. destruct xv, yv; reflexivity.
Qed.

Variables a ecc i : num.

(** One iteration of the loop adds the squared distance between what it
    reads and the propagated position. *)
Lemma residual_step_eq sqsum count idx :
  residual_step times obj a ecc i (sqsum, count) idx
  = (sqsum + read_residual times obj a ecc i idx, S count).
Proof. reflexivity. Qed.

Lemma fold_residual_step : forall selected sqsum count,
  fold_left (residual_step times obj a ecc i) selected (sqsum, count)
  = (fold_left add (map (read_residual times obj a ecc i) selected) sqsum,
     (length selected + count)%nat).
Proof.
  induction selected as [|idx rest IH]; intros sqsum count.
  - reflexivity.
  - cbn [fold_left map length]. rewrite residual_step_eq, IH.
    f_equal. lia.
Qed.

(** [arr[idx] || 0] is the recorded coordinate, an absent one being 0, when
    no recorded number is a falsy one other than [+0]. *)
Lemma or_zero_coordinate (arr : list (option num)) idx :
  (forall v, In (Some v) arr -> falsy v = true -> v = lit 0) ->
  or_zero (arr_get arr idx) = coordinate arr idx.
Proof.
  intros Hplain. unfold arr_get, coordinate.
  destruct (nth_error arr idx) as [[v|]|] eqn:Hnth; try reflexivity.
  simpl. destruct (falsy v) eqn:Hfalsy; [|reflexivity].
  symmetry. apply Hplain; [|exact Hfalsy].
  eapply nth_error_In. exact Hnth.
Qed.

Lemma read_position_recorded idx :
  plain_coordinates obj -> read_position obj idx = recorded_position obj idx.
Proof.
  intros Hplain. unfold read_position, recorded_position.
  assert (Hread : forall arr,
             In arr [x obj; y obj; z obj] ->
             or_zero (arr_get arr idx) = coordinate arr idx).
  { intros arr Harr. apply or_zero_coordinate.
    intros v Hin. exact (Hplain arr v Harr Hin). }
  rewrite !Hread by (simpl; auto). reflexivity.
Qed.

Lemma read_rms_recorded selected :
  plain_coordinates obj ->
  read_rms times obj a ecc i selected = rms_residual times obj a ecc i selected.
Proof.
  intros Hplain. unfold read_rms, rms_residual. do 3 f_equal.
  apply map_ext. intros idx. unfold read_residual, residual.
  rewrite read_position_recorded by exact Hplain. reflexivity.
Qed.

End CrossValidation.

Section CrossValidationResult.

Context {num : Type} `{JSNumber num}.
Local Open Scope js_scope.

Variable times : list num.
Variable obj : object num.
Variable numSamples : nat.

Lemma select_samples_nonempty :
  (1 <= numSamples)%nat -> (3 <= valid_count times obj)%nat ->
  (1 <= length (select_samples (validIdx times obj) numSamples))%nat.
Proof.
  unfold valid_count. intros Hn Hv. rewrite select_samples_length. lia.
Qed.

Lemma truthy_number_JNum (v : jsval num) (a : num) :
  truthy_number v = Some a <-> v = JNum a /\ falsy a = false.
Proof.
  unfold truthy_number. split.
  - destruct v as [| |n]; try discriminate.
    destruct (falsy n) eqn:Hfalsy; [discriminate|].
    intros Heq. injection Heq as <-. auto.
  - intros [-> Hfalsy]. rewrite Hfalsy. reflexivity.
Qed.

Lemma truthy_number_None (v : jsval num) :
  truthy_number v = None <->
  v = JUndefined \/ v = JNull \/ exists a, v = JNum a /\ falsy a = true.
Proof.
  unfold truthy_number. split.
  - destruct v as [| |n]; auto.
    destruct (falsy n) eqn:Hfalsy; [|discriminate].
    intros _. right. right. exists n. auto.
  - intros [-> | [-> | (a & -> & Hfalsy)]]; try reflexivity.
    rewrite Hfalsy. reflexivity.
Qed.

Lemma defined_number_None (v : jsval num) :
  defined_number v = None <-> v = JUndefined.
Proof.
  unfold defined_number. split.
  - destruct v; try discriminate. reflexivity.
  - intros ->. reflexivity.
Qed.

(** When the guard of line 439 lets the elements through, with three valid
    samples and a positive number of samples, the function returns the root
    of the mean of what its loop adds at the selected indices, and their
    number. *)
Lemma crossValidate_computed el a ecc i :
  elements obj = Some el ->
  truthy_number (a_AU el) = Some a ->
  defined_number (e el) = Some ecc ->
  defined_number (i_deg el) = Some i ->
  (3 <= valid_count times obj)%nat ->
  (1 <= numSamples)%nat ->
  crossValidateElements times obj numSamples
  = Some {| rms_km := read_rms times obj a ecc i
                        (select_samples (validIdx times obj) numSamples);
            samples := length (select_samples (validIdx times obj) numSamples) |}.
Proof.
  intros Hel Ha He Hi Hvalid Hn.
  pose proof (select_samples_nonempty Hn Hvalid) as Hsel.
  unfold crossValidateElements, valid_count in *.
  rewrite Hel, Ha, He, Hi.
  destruct (Nat.ltb_spec (length (validIdx times obj)) 3) as [Hlt|_]; [lia|].
  cbv zeta. rewrite fold_residual_step, Nat.add_0_r.
  destruct (length (select_samples (validIdx times obj) numSamples)) eqn:Hlen;
    [lia|].
  unfold read_rms, sum_list. rewrite Hlen. reflexivity.
Qed.

Lemma crossValidate_missing_element :
  missing_element obj -> crossValidateElements times obj numSamples = None.
Proof.
  unfold crossValidateElements.
  intros [Hnone | (el & Hel & [Ha | [Ha | [He | Hi]]])].
  - rewrite Hnone. reflexivity.
  - rewrite Hel, Ha. reflexivity.
  - rewrite Hel, Ha. reflexivity.
  - rewrite Hel, He. destruct (truthy_number (a_AU el)); reflexivity.
  - rewrite Hel, Hi.
    destruct (truthy_number (a_AU el)); [|reflexivity].
    destruct (defined_number (e el)); reflexivity.
Qed.

Lemma crossValidate_falsy_axis :
  falsy_axis obj -> crossValidateElements times obj numSamples = None.
Proof.
  intros (el & a & Hel & Ha & Hfalsy). unfold crossValidateElements.
  rewrite Hel, Ha. unfold truthy_number. rewrite Hfalsy. reflexivity.
Qed.

Lemma crossValidate_few_samples :
  (valid_count times obj < 3)%nat ->
  crossValidateElements times obj numSamples = None.
Proof.
  intros Hfew. unfold crossValidateElements, valid_count in *.
  destruct (elements obj) as [el|]; [|reflexivity].
  destruct (truthy_number (a_AU el)) as [a|]; [|reflexivity].
  destruct (defined_number (e el)) as [ecc|]; [|reflexivity].
  destruct (defined_number (i_deg el)) as [i|]; [|reflexivity].
  destruct (Nat.ltb_spec (length (validIdx times obj)) 3) as [_|Hge];
    [reflexivity | lia].
Qed.

(** The three ways to [null], and no other when a sample is asked for. *)
Lemma crossValidate_null_iff :
  (1 <= numSamples)%nat ->
  crossValidateElements times obj numSamples = None <->
  (valid_count times obj < 3)%nat \/ missing_element obj \/ falsy_axis obj.
Proof.
  intros Hn. split.
  - intros Hnull.
    destruct (Nat.lt_ge_cases (valid_count times obj) 3) as [Hlt|Hge];
      [left; exact Hlt | right].
    destruct (elements obj) as [el|] eqn:Hel.
    2:{ left. left. exact Hel. }
    destruct (truthy_number (a_AU el)) as [a|] eqn:Ha.
    2:{ apply truthy_number_None in Ha.
        destruct Ha as [Ha | [Ha | (a & Ha & Hfalsy)]].
        - left. right. exists el. auto.
        - left. right. exists el. auto.
        - right. exists el, a. auto. }
    destruct (defined_number (e el)) as [ecc|] eqn:He.
    2:{ apply defined_number_None in He. left. right. exists el. auto. }
    destruct (defined_number (i_deg el)) as [i|] eqn:Hi.
    2:{ apply defined_number_None in Hi. left. right. exists el. auto. }
    rewrite (crossValidate_computed Hel Ha He Hi Hge Hn) in Hnull.
    discriminate.
  - intros [Hfew | [Hinc | Hfalsy]].
    + apply crossValidate_few_samples, Hfew.
    + apply crossValidate_missing_element, Hinc.
    + apply crossValidate_falsy_axis, Hfalsy.
Qed.

(** A result comes from elements that pass the guard and from at least
    three valid samples, and counts at least one sample. *)
Lemma crossValidate_result_inv res :
  crossValidateElements times obj numSamples = Some res ->
  exists el a ecc i,
    elements obj = Some el /\
    a_AU el = JNum a /\
    defined_number (e el) = Some ecc /\ defined_number (i_deg el) = Some i /\
    falsy a = false /\
    (3 <= valid_count times obj)%nat /\
    (1 <= samples res)%nat /\
    samples res = length (select_samples (validIdx times obj) numSamples) /\
    rms_km res = read_rms times obj a ecc i
                   (select_samples (validIdx times obj) numSamples).
Proof.
  unfold crossValidateElements, valid_count. intros Hres.
  destruct (elements obj) as [el|] eqn:Hel; [|discriminate].
  destruct (truthy_number (a_AU el)) as [a|] eqn:Ha; [|discriminate].
  destruct (defined_number (e el)) as [ecc|] eqn:He; [|discriminate].
  destruct (defined_number (i_deg el)) as [i|] eqn:Hi; [|discriminate].
  apply truthy_number_JNum in Ha. destruct Ha as [Ha Hfalsy].
  destruct (Nat.ltb_spec (length (validIdx times obj)) 3) as [Hlt|Hge];
    [discriminate|].
  cbv zeta in Hres. rewrite fold_residual_step, Nat.add_0_r in Hres.
  destruct (length (select_samples (validIdx times obj) numSamples))
    as [|count] eqn:Hlen; [discriminate|].
  injection Hres as <-.
  exists el, a, ecc, i. cbn [samples rms_km].
  unfold read_rms, sum_list. rewrite Hlen.
  repeat split; try assumption; try reflexivity. lia.
Qed.

End CrossValidationResult.


(** C10. When the semi-major axis of the elements is falsy, that is 0 or
    NaN, [crossValidateElements] returns [null] whatever the recorded
    samples are; an eccentricity and an inclination equal to 0 are accepted,
    and with a truthy axis, three valid samples and a positive number of
    samples the function then returns a result. *)
Theorem falsy_axis_rejected :
  forall (num : Type) (N : JSNumber num) (times : list num) (obj : object num)
         (numSamples : nat),
    (falsy_axis obj -> crossValidateElements times obj numSamples = None) /\
    (forall el a,
        elements obj = Some el ->
        a_AU el = JNum a -> e el = JNum (lit 0) -> i_deg el = JNum (lit 0) ->
        falsy a = false ->
        3 <= valid_count times obj ->
        1 <= numSamples ->
        exists res, crossValidateElements times obj numSamples = Some res).
Proof.
  intros num N times obj numSamples. split.
  - apply crossValidate_falsy_axis.
  - intros el a Hel Ha He Hi Htruthy Hvalid Hn.
    assert (Hpass : truthy_number (a_AU el) = Some a)
      by (apply truthy_number_JNum; split; assumption).
    assert (Hecc : defined_number (e el) = Some (lit 0))
      by (rewrite He; reflexivity).
    assert (Hinc : defined_number (i_deg el) = Some (lit 0))
      by (rewrite Hi; reflexivity).
    eexists. eapply crossValidate_computed; eassumption.
Qed.

Section ReadOnly.

Context {num : Type} `{JSNumber num}.
Local Open Scope js_scope.

Variable st : store num.

(** The loop that collects the valid indices leaves the store alone. *)
Lemma collect_loop_pure : forall l validIdx,
  for_each (fun validIdx i =>
              xv <- read_x i ;;
              yv <- read_y i ;;
              ret (if not_null xv && not_null yv
                   then validIdx ++ [i] else validIdx))
           l validIdx st
  = (validIdx
     ++ filter (fun i => not_null (arr_get (x (passed_object st)) i)
                         && not_null (arr_get (y (passed_object st)) i)) l,
     st).
Proof.
  induction l as [|i rest IH]; intro validIdx.
  - simpl. unfold ret. rewrite app_nil_r. reflexivity.
  - cbn [for_each filter]. unfold bind at 1. unfold bind at 1.
    unfold read_x at 1. unfold bind at 1. unfold read_y at 1. unfold ret at 1.
    rewrite IH.
    destruct (not_null (arr_get (x (passed_object st)) i)
              && not_null (arr_get (y (passed_object st)) i)).
    + rewrite <- app_assoc. reflexivity.
    + reflexivity.
Qed.

Lemma collect_valid_pure :
  collect_valid st = (validIdx (scene_times_jd st) (passed_object st), st).
Proof.
  unfold collect_valid, bind, read_times_length.
  rewrite collect_loop_pure. reflexivity.
Qed.

(** So does the loop that accumulates the residuals. *)
Lemma accumulate_residuals_pure (a ecc i : num) : forall selected acc,
  for_each (fun (acc : num * nat) idx =>
              let '(sqsum, count) := acc in
              jd <- read_time idx ;;
              let '(px, py, pz) :=
                elementsToPosition a ecc i (lit 0) (lit 0) (lit 0)
                                   (lit 2451545.0) (Some jd) in
              xv <- read_x idx ;;
              yv <- read_y idx ;;
              zv <- read_z idx ;;
              let dx := or_zero xv - px in
              let dy := or_zero yv - py in
              let dz := or_zero zv - pz in
              ret (sqsum + (dx * dx + dy * dy + dz * dz), S count))
           selected acc st
  = (fold_left (residual_step (scene_times_jd st) (passed_object st) a ecc i)
               selected acc,
     st).
Proof.
  induction selected as [|idx rest IH]; intros [sqsum count].
  - reflexivity.
  - cbn [for_each fold_left]. unfold bind at 1. rewrite <- IH. reflexivity.
Qed.

(** A call returns what the function computes from the store, and the
    store. *)
Lemma crossValidateElements_call_pure (numSamples : nat) :
  crossValidateElements_call numSamples st
  = (crossValidateElements (scene_times_jd st) (passed_object st) numSamples,
     st).
Proof.
  unfold crossValidateElements_call, crossValidateElements.
  unfold bind at 1. unfold read_elements.
  destruct (elements (passed_object st)) as [el|]; [|reflexivity].
  destruct (truthy_number (a_AU el)) as [a|]; [|reflexivity].
  destruct (defined_number (e el)) as [ecc|]; [|reflexivity].
  destruct (defined_number (i_deg el)) as [i|]; [|reflexivity].
  unfold bind at 1. rewrite collect_valid_pure.
  destruct (length (validIdx (scene_times_jd st) (passed_object st)) <? 3)%nat;
    [reflexivity|].
  cbv zeta. unfold bind at 1, accumulate_residuals.
  rewrite accumulate_residuals_pure.
  destruct (fold_left _ _ _) as [sqsum [|count]]; reflexivity.
Qed.

End ReadOnly.

(** C9. A call of [crossValidateElements] leaves the store as it found it,
    the time grid and the object with its elements and samples, and a
    second call with the same arguments returns the same result. *)
Theorem crossValidate_deterministic_and_pure :
  forall (num : Type) (N : JSNumber num) (st : store num) (numSamples : nat),
    exists r,
      crossValidateElements_call numSamples st = (r, st) /\
      call_twice numSamples st = ((r, r), st).
Proof.
  intros num N st numSamples.
  exists (crossValidateElements (scene_times_jd st) (passed_object st)
                                numSamples).
  pose proof (crossValidateElements_call_pure st numSamples) as Hcall.
  split; [exact Hcall|].
  unfold call_twice, bind. rewrite Hcall, Hcall. reflexivity.
Qed.

(** ** How far the selection reaches *)

Lemma unsampled_tail_fits validCount numSamples :
  1 <= numSamples -> numSamples <= validCount ->
  unsampled_tail validCount numSamples (sample_step validCount numSamples)
  + 1
  = sample_step validCount numSamples + validCount mod numSamples.
Proof.
  intros Hn Hv.
  destruct (sample_step_fits Hn Hv) as [_ Hfit].
  pose proof (sample_step_pos validCount numSamples) as Hpos.
  unfold unsampled_tail.
  set (s := sample_step validCount numSamples) in *.
  set (r := validCount mod numSamples) in *.
  assert (Hprod : (numSamples - 1) * s + s = numSamples * s) by nia.
  lia.
Qed.

Lemma unsampled_tail_short validCount numSamples :
  1 <= validCount -> validCount < numSamples ->
  unsampled_tail validCount validCount (sample_step validCount numSamples) = 0.
Proof.
  intros Hv Hlt. rewrite sample_step_short by exact Hlt.
  unfold unsampled_tail. lia.
Qed.

Lemma unsampled_tail_bound (valid : list nat) (numSamples : nat) :
  1 <= length valid -> 1 <= numSamples ->
  unsampled_tail (length valid) (length (select_samples valid numSamples))
                 (sample_step (length valid) numSamples)
  < sample_step (length valid) numSamples + length valid mod numSamples.
Proof.
  intros Hv Hn. rewrite select_samples_length.
  pose proof (sample_step_pos (length valid) numSamples) as Hpos.
  destruct (Nat.le_gt_cases numSamples (length valid)) as [Hle | Hgt].
  - rewrite Nat.min_l by exact Hle.
    pose proof (unsampled_tail_fits Hn Hle). lia.
  - rewrite Nat.min_r by lia.
    rewrite unsampled_tail_short by assumption. lia.
Qed.

Lemma spans_when_divides (valid : list nat) (numSamples : nat) :
  1 <= length valid -> 1 <= numSamples ->
  length valid mod numSamples = 0 \/ length valid <= numSamples ->
  spans_valid_range valid numSamples.
Proof.
  intros Hv Hn Hcase. unfold spans_valid_range.
  pose proof (unsampled_tail_bound valid Hv Hn) as Hbound.
  destruct Hcase as [Hdiv | Hle].
  - rewrite Hdiv in Hbound. lia.
  - destruct (Nat.eq_dec (length valid) numSamples) as [Heq | Hne].
    + assert (Hdiv : length valid mod numSamples = 0)
        by (rewrite Heq; apply Nat.Div0.mod_same).
      rewrite Hdiv in Hbound. lia.
    + rewrite select_samples_length, Nat.min_r by lia.
      rewrite unsampled_tail_short by lia.
      apply sample_step_pos.
Qed.

(** C5, as the code has it. With at least three valid samples and a positive
    number of samples asked for, [crossValidateElements] selects exactly
    [min numSamples validCount] valid indices, those at the positions
    [0, stride, 2 * stride, ...] of the list of valid indices, where
    [stride = max 1 (validCount / numSamples)], in strictly increasing
    order. Fewer than [stride + validCount mod numSamples] valid positions
    follow the last selected one: the selection reaches the end of the valid
    range when [numSamples] divides [validCount] or is not below it, as for
    5 samples out of 1000, which are taken with stride 200. *)
Theorem sample_selection :
  forall (num : Type) (times : list num) (obj : object num) (numSamples : nat),
    let valid := validIdx times obj in
    let stride := sample_step (length valid) numSamples in
    let selected := select_samples valid numSamples in
    3 <= length valid ->
    1 <= numSamples ->
    stride = Nat.max 1 (length valid / numSamples) /\
    length selected = Nat.min numSamples (length valid) /\
    (forall k, k < length selected ->
               nth_error selected k = nth_error valid (k * stride)) /\
    increasing selected /\
    unsampled_tail (length valid) (length selected) stride
    < stride + length valid mod numSamples /\
    (length valid mod numSamples = 0 \/ length valid <= numSamples ->
     spans_valid_range valid numSamples) /\
    (length valid = 1000 -> numSamples = 5 ->
     stride = 200 /\ length selected = 5 /\ spans_valid_range valid numSamples).
Proof.
  intros num times obj numSamples valid stride selected Hv Hn.
  assert (Hlen : length selected = Nat.min numSamples (length valid))
    by apply select_samples_length.
  assert (Hspan : length valid mod numSamples = 0 \/ length valid <= numSamples ->
                  spans_valid_range valid numSamples)
    by (apply spans_when_divides; lia).
  repeat match goal with |- _ /\ _ => split end.
  - reflexivity.
  - exact Hlen.
  - intros k Hk. apply select_samples_nth. exact Hk.
  - apply increasing_pick_samples;
      [apply increasing_validIdx | apply sample_step_pos].
  - apply unsampled_tail_bound; lia.
  - exact Hspan.
  - intros Hthousand Hfive. split; [|split].
    + subst stride. rewrite Hthousand, Hfive. reflexivity.
    + rewrite Hlen, Hthousand, Hfive. reflexivity.
    + apply Hspan. left. rewrite Hthousand, Hfive. reflexivity.
Qed.

(** ** Binary64 facts *)

Module FloatProperties.

Import SpecFloat.

(** Rounding a positive magnitude gives no negative number. *)
Lemma round_not_negative (mx ex : Z) (lx : location) :
  SFltb (binary_round_aux prec emax false mx ex lx) (S754_zero false) = false.
Proof.
  unfold binary_round_aux.
  destruct (shr_fexp prec emax mx ex lx) as [mrs' e'].
  destruct (shr_fexp prec emax _ e' loc_Exact) as [mrs'' e''].
  destruct (shr_m mrs'') as [|m|m]; try reflexivity.
  destruct (Z.leb e'' (emax - prec)); reflexivity.
Qed.

(** [Math.sqrt] never returns a negative number: its result is [+0], [-0],
    positive, or NaN. *)
Lemma sqrt_not_negative (v : float) :
  PrimFloat.ltb (PrimFloat.sqrt v) 0 = false.
Proof.
  rewrite ltb_spec, sqrt_spec.
  change (Prim2SF 0) with (S754_zero false).
  unfold SF64sqrt, SFsqrt.
  destruct (Prim2SF v) as [s|s| |s m e]; try reflexivity;
    destruct s; try reflexivity.
  destruct (SFsqrt_core_binary prec emax (Z.pos m) e) as [[mz ez] lz].
  apply round_not_negative.
Qed.

(** *** NaN propagates *)

Lemma mul_nan_l (v : float) : (nan * v)%float = nan.
Proof. apply Prim2SF_inj. rewrite mul_spec. reflexivity. Qed.

Lemma mul_nan_r (v : float) : (v * nan)%float = nan.
Proof.
  apply Prim2SF_inj. rewrite mul_spec.
  change (Prim2SF nan) with S754_nan. destruct (Prim2SF v); reflexivity.
Qed.

Lemma add_nan_l (v : float) : (nan + v)%float = nan.
Proof. apply Prim2SF_inj. rewrite add_spec. reflexivity. Qed.

Lemma add_nan_r (v : float) : (v + nan)%float = nan.
Proof.
  apply Prim2SF_inj. rewrite add_spec.
  change (Prim2SF nan) with S754_nan. destruct (Prim2SF v); reflexivity.
Qed.

Lemma sub_nan_l (v : float) : (nan - v)%float = nan.
Proof. apply Prim2SF_inj. rewrite sub_spec. reflexivity. Qed.

Lemma sub_nan_r (v : float) : (v - nan)%float = nan.
Proof.
  apply Prim2SF_inj. rewrite sub_spec.
  change (Prim2SF nan) with S754_nan. destruct (Prim2SF v); reflexivity.
Qed.

Lemma div_nan_l (v : float) : (nan / v)%float = nan.
Proof. apply Prim2SF_inj. rewrite div_spec. reflexivity. Qed.

Lemma ltb_nan_l (v : float) : PrimFloat.ltb nan v = false.
Proof. rewrite ltb_spec. reflexivity. Qed.

(** No number is below or equal to NaN. *)
Lemma leb_nan_r (u v : float) :
  PrimFloat.is_nan v = true -> PrimFloat.leb u v = false.
Proof.
  unfold PrimFloat.is_nan. rewrite leb_spec, eqb_spec. unfold SFleb, SFeqb.
  destruct (Prim2SF v) as [s|s| |s m e]; simpl.
  - intros; discriminate.
  - destruct s; intros; discriminate.
  - intros _. destruct (Prim2SF u) as [s|s| |s m e]; reflexivity.
  - rewrite Z.compare_refl, Pos.compare_cont_refl.
    destruct s; intros; discriminate.
Qed.

(** *** A negative semi-major axis *)

Section Degraded.

Import FloatNumber FloatScenario.

Variables (host_sin host_cos : float -> float).
Variables (host_atan2 host_rem : float -> float -> float).

Local Abbreviation host :=
  (float_JSNumber host_sin host_cos host_atan2 host_rem).

(** ECMAScript has [Math.cos(NaN)] and [NaN % v] be NaN. *)
Hypothesis cos_nan : host_cos nan = nan.
Hypothesis rem_nan : forall v, host_rem nan v = nan.

Ltac float_ops :=
  cbn [add sub mul div rem neg lt falsy Math_sqrt Math_abs Math_sin Math_cos
       Math_atan2 Math_PI float_JSNumber].

Lemma normalize_angle_nan : @normalize_angle float host nan = nan.
Proof.
  unfold normalize_angle. float_ops. rewrite rem_nan, add_nan_l, rem_nan.
  reflexivity.
Qed.

Lemma newton_delta_nan (ecc : float) : @newton_delta float host ecc nan nan = nan.
Proof.
  unfold newton_delta. float_ops. rewrite !sub_nan_l.
  change (- nan)%float with nan. apply div_nan_l.
Qed.

Lemma newton_loop_nan (ecc tol : float) : forall k,
  @newton_loop float host ecc nan tol k nan = nan.
Proof.
  induction k as [|k IH]; [reflexivity|].
  cbn [newton_loop]. rewrite newton_delta_nan. float_ops.
  change (abs nan) with nan. rewrite ltb_nan_l, add_nan_l. exact IH.
Qed.

Lemma solveKepler_nan (tol : float) (k : nat) :
  @solveKepler float host nan 0%float tol k = nan.
Proof.
  unfold solveKepler. rewrite normalize_angle_nan.
  change (@lt float host 0%float (lit 0.8)) with true. cbv iota.
  apply newton_loop_nan.
Qed.

(** With a NaN mean motion the position is NaN, whatever the host's sine,
    cosine and arc tangent of numbers are. *)
Lemma position_nan (a i_deg Omega_deg omega_deg M_deg epochJD jd : float) :
  @mean_motion float host (@mul float host a (@AU_KM float host)) = nan ->
  @elementsToPosition float host a 0%float i_deg Omega_deg omega_deg M_deg
                      epochJD (Some jd)
  = (nan, nan, nan).
Proof.
  intros Hn. unfold elementsToPosition. cbv zeta. rewrite Hn.
  float_ops. rewrite mul_nan_l, add_nan_r, solveKepler_nan, cos_nan.
  rewrite (mul_nan_r 0), (sub_nan_r (@lit float host 1)),
    (mul_nan_r (a * @AU_KM float host)).
  rewrite !mul_nan_l, !mul_nan_r, !add_nan_l. reflexivity.
Qed.

(** The object with the axis [-1] gets a result whose [rms_km] is NaN. *)
Lemma negative_axis_nan :
  exists res,
    @crossValidateElements float host three_days negative_axis_object 10
    = Some res /\
    PrimFloat.is_nan (rms_km res) = true.
Proof.
  eexists. split.
  - eapply crossValidate_computed;
      [reflexivity | reflexivity | reflexivity | reflexivity
      | vm_compute; lia | lia].
  - cbn [rms_km]. unfold read_rms.
    change (select_samples (validIdx three_days negative_axis_object) 10)
      with [0; 1; 2]%nat.
    cbn [map]. unfold read_residual, propagated_position.
    rewrite !position_nan by (vm_compute; reflexivity).
    vm_compute. reflexivity.
Qed.

End Degraded.

End FloatProperties.

(** ** The propagator over the reals *)

Module RealProperties.

Import RealNumber Pipeline.
Local Open Scope R_scope.
Local Abbreviation sqrt := R_sqrt.sqrt.

(** *** Literals *)

Lemma lit_0 : lit 0 = 0.
Proof. unfold lit. simpl. unfold Q2R. simpl. lra. Qed.

Lemma lit_1 : lit 1 = 1.
Proof. unfold lit. simpl. unfold Q2R. simpl. lra. Qed.

Lemma lit_2 : lit 2 = 2.
Proof. unfold lit. simpl. unfold Q2R. simpl. lra. Qed.

Lemma lit_180 : lit 180 = 180.
Proof. unfold lit. simpl. unfold Q2R. simpl. lra. Qed.

Lemma lit_86400 : lit 86400.0 = 86400.
Proof. unfold lit. simpl. unfold Q2R. simpl. lra. Qed.

Lemma AU_KM_value : AU_KM = 149597870.7.
Proof. unfold AU_KM, lit. simpl. unfold Q2R. simpl. lra. Qed.

Lemma MU_SUN_value : MU_SUN = 1.32712440018e11.
Proof. unfold MU_SUN, lit. simpl. unfold Q2R. simpl. lra. Qed.

Lemma lit_count (n : nat) : lit (inject_Z (Z.of_nat n)) = INR n.
Proof.
  unfold lit. simpl. unfold Q2R. simpl.
  rewrite INR_IZR_INZ. lra.
Qed.

Lemma AU_KM_pos : 0 < AU_KM.
Proof. rewrite AU_KM_value. lra. Qed.

Lemma MU_SUN_pos : 0 < MU_SUN.
Proof. rewrite MU_SUN_value. lra. Qed.

Lemma two_PI_pos : 0 < 2 * PI.
Proof. pose proof PI_RGT_0. lra. Qed.

(** *** The remainder and the normalisation of the mean anomaly *)

(** The quotient of [%] is an integer within one of the exact quotient, on
    the side of zero. *)
Lemma Rtrunc_integer (q : R) :
  exists t : Z, Rtrunc q = IZR t /\ 0 <= q - IZR t + 1 /\ q - IZR t < 1.
Proof.
  unfold Rtrunc. destruct (Rle_dec 0 q) as [Hpos | Hneg].
  - exists (Zfloor q). pose proof (Zfloor_bound q). split; [reflexivity | lra].
  - exists (Zceil q). pose proof (Zceil_bound q). split; [reflexivity | lra].
Qed.

Lemma Rtrunc_nonneg (q : R) : 0 <= q -> Rtrunc q = IZR (Zfloor q).
Proof.
  intros Hq. unfold Rtrunc. destruct (Rle_dec 0 q); [reflexivity | contradiction].
Qed.

(** Adding the modulus between two remainders gives the remainder of the
    floored division. *)
Lemma Rrem_twice (M T : R) :
  0 < T -> Rrem (Rrem M T + T) T = M - T * IZR (Zfloor (M / T)).
Proof.
  intros HT.
  destruct (Rtrunc_integer (M / T)) as (t & Ht & Hlow & Hhigh).
  assert (Hquot : (Rrem M T + T) / T = M / T + IZR (1 - t)).
  { unfold Rrem. rewrite Ht, minus_IZR. field. lra. }
  unfold Rrem at 1. rewrite Hquot.
  rewrite Rtrunc_nonneg by (rewrite minus_IZR; lra).
  rewrite Zfloor_addz, plus_IZR, minus_IZR.
  unfold Rrem. rewrite Ht. ring.
Qed.

Lemma normalize_angle_floor (M : R) :
  normalize_angle M = M - 2 * PI * IZR (Zfloor (M / (2 * PI))).
Proof.
  unfold normalize_angle. rewrite lit_2. simpl.
  apply Rrem_twice, two_PI_pos.
Qed.

(** The normalised mean anomaly is in [[0, 2 PI)]. *)
Lemma normalize_angle_range (M : R) :
  0 <= normalize_angle M < 2 * PI.
Proof.
  rewrite normalize_angle_floor.
  pose proof two_PI_pos as HT.
  pose proof (Zfloor_bound (M / (2 * PI))) as [Hlow Hhigh].
  assert (HM : M = M / (2 * PI) * (2 * PI)) by (field; lra).
  split.
  - apply Rmult_le_compat_r with (r := 2 * PI) in Hlow; lra.
  - apply Rmult_lt_compat_r with (r := 2 * PI) in Hhigh; lra.
Qed.

(** Whole turns do not change it. *)
Lemma normalize_angle_periodic (M : R) (k : Z) :
  normalize_angle (M + IZR k * (2 * PI)) = normalize_angle M.
Proof.
  rewrite !normalize_angle_floor.
  pose proof two_PI_pos as HT.
  replace ((M + IZR k * (2 * PI)) / (2 * PI)) with (M / (2 * PI) + IZR k)
    by (field; lra).
  rewrite Zfloor_addz, plus_IZR. ring.
Qed.

Lemma solveKepler_periodic (M ecc tol : R) (maxiter : nat) (k : Z) :
  solveKepler (M + IZR k * (2 * PI)) ecc tol maxiter
  = solveKepler M ecc tol maxiter.
Proof.
  unfold solveKepler. rewrite normalize_angle_periodic. reflexivity.
Qed.

(** *** The position on the orbit *)

(** The class operations at the real instance are those of [R]. *)
Ltac real_ops :=
  cbn [add sub mul div rem neg lt falsy Math_sqrt Math_abs Math_sin Math_cos
       Math_atan2 Math_PI R_JSNumber].

Lemma elementsToPosition_factor
    (a ecc i_deg Omega_deg omega_deg M_deg epochJD : R) (targetJD : option R) :
  elementsToPosition a ecc i_deg Omega_deg omega_deg M_deg epochJD targetJD
  = position_of_anomaly a ecc i_deg Omega_deg omega_deg
      (solveKepler (mean_anomaly_at a M_deg epochJD targetJD) ecc
                   default_tol default_maxiter).
Proof. reflexivity. Qed.

(** The rotation into the ecliptic frame keeps the length of a vector of the
    orbital plane. *)
Lemma rotation_keeps_length (cO sO ci si cw sw xp yp : R) :
  cO * cO + sO * sO = 1 -> ci * ci + si * si = 1 -> cw * cw + sw * sw = 1 ->
  ((cO * cw - sO * sw * ci) * xp + (- cO * sw - sO * cw * ci) * yp
   + sO * si * 0) ^ 2
  + ((sO * cw + cO * sw * ci) * xp + (- sO * sw + cO * cw * ci) * yp
     + - cO * si * 0) ^ 2
  + (sw * si * xp + cw * si * yp + ci * 0) ^ 2
  = xp ^ 2 + yp ^ 2.
Proof.
  intros HO Hi Hw.
  set (hO := cO * cO + sO * sO - 1).
  set (hi := ci * ci + si * si - 1).
  set (hw := cw * cw + sw * sw - 1).
  assert (HO' : hO = 0) by (unfold hO; lra).
  assert (Hi' : hi = 0) by (unfold hi; lra).
  assert (Hw' : hw = 0) by (unfold hw; lra).
  match goal with
  | |- ?lhs = ?rhs =>
      replace lhs with
        (rhs
         + (xp ^ 2 * ((cw ^ 2 + sw ^ 2 * ci ^ 2) * hO + sw ^ 2 * hi + hw)
            + yp ^ 2 * ((sw ^ 2 + cw ^ 2 * ci ^ 2) * hO + cw ^ 2 * hi + hw)
            + 2 * xp * yp * (sw * cw * (ci ^ 2 - 1) * hO + sw * cw * hi)))
        by (unfold hO, hi, hw; ring)
  end.
  rewrite HO', Hi', Hw'. ring.
Qed.

Lemma cos_sin_unit (t : R) : cos t * cos t + sin t * sin t = 1.
Proof. pose proof (sin2_cos2 t) as Hunit. unfold Rsqr in Hunit. lra. Qed.

(** The distance from the Sun is [|a_km (1 - e cos E)|], for every
    orientation of the orbit. *)
Lemma position_of_anomaly_norm (a ecc i_deg Omega_deg omega_deg E : R) :
  norm3 (position_of_anomaly a ecc i_deg Omega_deg omega_deg E)
  = Rabs (a * AU_KM * (1 - ecc * cos E)).
Proof.
  unfold position_of_anomaly, norm3. cbv zeta.
  rewrite !lit_0, !lit_1, !lit_180. real_ops.
  set (nu := Ratan2 _ _).
  set (r := a * AU_KM * (1 - ecc * cos E)).
  rewrite rotation_keeps_length by apply cos_sin_unit.
  replace ((r * cos nu) ^ 2 + (r * sin nu) ^ 2)
    with (Rsqr r * (cos nu * cos nu + sin nu * sin nu))
    by (unfold Rsqr; ring).
  rewrite cos_sin_unit, Rmult_1_r.
  apply sqrt_Rsqr_abs.
Qed.

(** C6. For a circular orbit, [e = 0], with [a > 0], whatever the angles,
    the epoch and the target date (given or not), the Euclidean norm of the
    position returned by [elementsToPosition] is [a * 149597870.7]
    kilometres, exactly, in real arithmetic. *)
Theorem circular_orbit_radius :
  forall (a i_deg Omega_deg omega_deg M_deg epochJD : R) (targetJD : option R),
    0 < a ->
    norm3 (elementsToPosition a 0 i_deg Omega_deg omega_deg M_deg epochJD
                              targetJD)
    = a * 149597870.7.
Proof.
  intros a i_deg Omega_deg omega_deg M_deg epochJD targetJD Ha.
  rewrite elementsToPosition_factor, position_of_anomaly_norm.
  rewrite Rmult_0_l, Rminus_0_r, Rmult_1_r, AU_KM_value.
  apply Rabs_pos_eq. nra.
Qed.

(** *** Periodicity *)

Lemma mean_motion_pos (a : R) : 0 < a -> 0 < mean_motion (a * AU_KM).
Proof.
  intros Ha. unfold mean_motion. real_ops.
  pose proof AU_KM_pos as HAU. pose proof MU_SUN_pos as HMU.
  apply sqrt_lt_R0.
  assert (Hkm : 0 < a * AU_KM) by nra.
  apply Rdiv_lt_0_compat; [exact HMU|].
  apply Rmult_lt_0_compat; [apply Rmult_lt_0_compat|]; exact Hkm.
Qed.

(** A whole number of periods adds as many turns to the mean anomaly. *)
Lemma mean_anomaly_after_periods (a M_deg epochJD : R) (k : Z) :
  0 < a ->
  mean_anomaly_at a M_deg epochJD (Some (epochJD + IZR k * period_days a))
  = mean_anomaly_at a M_deg epochJD (Some epochJD) + IZR k * (2 * PI).
Proof.
  intros Ha. pose proof (mean_motion_pos Ha) as Hn.
  unfold mean_anomaly_at, period_days. cbv zeta.
  rewrite !lit_86400, !lit_180. real_ops.
  field. lra.
Qed.

Lemma mean_anomaly_at_epoch (a M_deg epochJD : R) :
  mean_anomaly_at a M_deg epochJD (Some epochJD)
  = mean_anomaly_at a M_deg epochJD None.
Proof.
  unfold mean_anomaly_at. cbv zeta. real_ops. ring.
Qed.


(** *** The reference pipeline *)

Lemma mean_motion_reference (a : R) :
  sqrt (1.32712440018e11 / (a * 149597870.7) ^ 3) = mean_motion (a * AU_KM).
Proof.
  unfold mean_motion. real_ops. rewrite MU_SUN_value, AU_KM_value.
  f_equal. f_equal. ring.
Qed.

Lemma mean_anomaly_reference (a M_deg epochJD : R) (targetJD : option R) :
  match targetJD with
  | Some targetJD =>
      radians M_deg
      + sqrt (1.32712440018e11 / (a * 149597870.7) ^ 3)
        * (targetJD - epochJD) * 86400
  | None => radians M_deg
  end
  = mean_anomaly_at a M_deg epochJD targetJD.
Proof.
  rewrite mean_motion_reference.
  unfold mean_anomaly_at, radians. cbv zeta.
  rewrite !lit_86400, !lit_180. real_ops.
  destruct targetJD as [targetJD|]; [ring | reflexivity].
Qed.

(** The closed form of lines 418-433 is the product of the three frame
    rotations, applied to the perifocal vector. *)
Lemma rotation_reference (a ecc i_deg Omega_deg omega_deg E : R) :
  position_of_anomaly a ecc i_deg Omega_deg omega_deg E
  = let nu := Ratan2 (sqrt (1 - ecc ^ 2) * sin E) (cos E - ecc) in
    let r := a * 149597870.7 * (1 - ecc * cos E) in
    mat_vec (mat_mul (Rz (- radians Omega_deg))
                     (mat_mul (Rx (- radians i_deg))
                              (Rz (- radians omega_deg))))
            (r * cos nu, r * sin nu, 0).
Proof.
  unfold position_of_anomaly, radians. cbv zeta.
  rewrite !lit_0, !lit_1, !lit_180, AU_KM_value. real_ops.
  replace (ecc ^ 2) with (ecc * ecc) by ring.
  set (nu := Ratan2 _ _).
  unfold mat_vec, mat_mul, columns, Rz, Rx, dot.
  rewrite !cos_neg, !sin_neg.
  f_equal; [f_equal|]; ring.
Qed.

(** C1. For every tuple of elements and every target date, given or not,
    [elementsToPosition] returns the position of the reference pipeline:
    [a_km = a * 149597870.7], [n = sqrt (1.32712440018e11 / a_km^3)],
    [M = M0 + n * (targetJD - epochJD) * 86400] or [M0], the solver's [E],
    [nu = atan2 (sqrt (1 - e^2) * sin E) (cos E - e)],
    [r = a_km * (1 - e * cos E)], and the perifocal vector
    [(r cos nu, r sin nu, 0)] multiplied by
    [Rz (- Omega) * Rx (- i) * Rz (- omega)], the matrices being the frame
    rotations of astrodynamics. The equality is exact in real arithmetic. *)
Theorem elementsToPosition_reference :
  forall (a ecc i_deg Omega_deg omega_deg M_deg epochJD : R)
         (targetJD : option R),
    elementsToPosition a ecc i_deg Omega_deg omega_deg M_deg epochJD targetJD
    = reference_position a ecc i_deg Omega_deg omega_deg M_deg epochJD
                         targetJD.
Proof.
  intros a ecc i_deg Omega_deg omega_deg M_deg epochJD targetJD.
  rewrite elementsToPosition_factor, rotation_reference.
  unfold reference_position. cbv zeta.
  rewrite mean_anomaly_reference. reflexivity.
Qed.

(** *** The solver *)

Lemma lit_08 : lit 0.8 = 0.8.
Proof. unfold lit. simpl. unfold Q2R. simpl. lra. Qed.

Lemma default_tol_value : default_tol = 1e-9.
Proof. unfold default_tol, lit. simpl. unfold Q2R. simpl. lra. Qed.

Lemma Rltb_true (u v : R) : Rltb u v = true <-> u < v.
Proof.
  unfold Rltb. destruct (Rlt_dec u v); split; intros; try assumption;
    try reflexivity; try discriminate; contradiction.
Qed.

Lemma Rltb_false (u v : R) : Rltb u v = false <-> ~ u < v.
Proof.
  unfold Rltb. destruct (Rlt_dec u v); split; intros; try assumption;
    try reflexivity; try discriminate; contradiction.
Qed.

(** Adding the correction of the code is the update of the specification. *)
Lemma newton_update_delta (ecc M E : R) :
  E + newton_delta ecc M E = newton_update ecc M E.
Proof.
  unfold newton_delta, newton_update. cbv zeta. rewrite lit_1. real_ops.
  unfold Rdiv. ring.
Qed.

Lemma newton_iterate_update (ecc M : R) : forall k E,
  newton_iterate ecc M k E = Nat.iter k (newton_update ecc M) E.
Proof.
  induction k as [|k IH]; intro E.
  - reflexivity.
  - rewrite newton_iterate_S, IH. apply newton_update_delta.
Qed.

(** The size of an update is compared with the tolerance. *)
Lemma small_update_lt (ecc M tol E0 : R) (j : nat) :
  small_update ecc M tol E0 j = true <->
  Rabs (Nat.iter (S j) (newton_update ecc M) E0
        - Nat.iter j (newton_update ecc M) E0) < tol.
Proof.
  unfold small_update. real_ops. rewrite Rltb_true, newton_iterate_update.
  cbn [Nat.iter nat_rect]. rewrite <- newton_update_delta.
  replace (Nat.iter j (newton_update ecc M) E0
           + newton_delta ecc M (Nat.iter j (newton_update ecc M) E0)
           - Nat.iter j (newton_update ecc M) E0)
    with (newton_delta ecc M (Nat.iter j (newton_update ecc M) E0)) by ring.
  reflexivity.
Qed.

(** C2. For every mean anomaly [M], eccentricity [e], tolerance and cap,
    and for every implementation of the Number operations, [solveKepler]
    normalises [M], starts from [E0 = M] when [e < 0.8] and from [E0 = PI]
    otherwise, and returns the [k]-th iterate of [E <- E + dE],
    [dE = - (E - e sin E - M) / (1 - e cos E)], where [k] is the first update
    with [|dE|] below the tolerance, or the cap [maxiter] when there is none
    before: no update before the [k]-th was small, and if [k] is below the
    cap, the [k]-th was. The function is total, so nothing is raised when
    the iteration has not converged. Over the reals the normalised [M] is in
    [[0, 2 PI)] and differs from [M] by whole turns, the update is
    [E <- E - (E - e sin E - M) / (1 - e cos E)] and [dE] is the difference
    of two successive iterates. The defaults are [1e-9] and [80]. *)
Theorem solveKepler_newton_raphson :
  (forall (num : Type) (N : JSNumber num) (M ecc tol : num) (maxiter : nat),
      let M' := normalize_angle M in
      let E0 := if lt ecc (lit 0.8) then M' else Math_PI in
      exists k,
        (k <= maxiter)%nat /\
        solveKepler M ecc tol maxiter = newton_iterate ecc M' k E0 /\
        (forall j, (S j < k)%nat -> small_update ecc M' tol E0 j = false) /\
        ((k < maxiter)%nat ->
         exists j, k = S j /\ small_update ecc M' tol E0 j = true)) /\
  (forall (M ecc tol : R) (maxiter : nat),
      let M' := normalize_angle M in
      let E0 := if Rlt_dec ecc 0.8 then M' else PI in
      let iterate k := Nat.iter k (newton_update ecc M') E0 in
      (0 <= M' < 2 * PI /\ exists turns : Z, M' = M + IZR turns * (2 * PI)) /\
      (exists k,
          (k <= maxiter)%nat /\
          solveKepler M ecc tol maxiter = iterate k /\
          (forall j, (S j < k)%nat ->
                     ~ Rabs (iterate (S j) - iterate j) < tol) /\
          ((k < maxiter)%nat ->
           exists j, k = S j /\ Rabs (iterate (S j) - iterate j) < tol))) /\
  default_tol = 1e-9 /\ default_maxiter = 80%nat.
Proof.
  split; [|split; [|split]].
  - intros num N M ecc tol maxiter M' E0.
    apply newton_loop_iterate.
  - intros M ecc tol maxiter M' E0 iterate. split.
    + split; [apply normalize_angle_range|].
      exists (- Zfloor (M / (2 * PI)))%Z. subst M'.
      rewrite normalize_angle_floor, opp_IZR. ring.
    + assert (HE0 : (if lt ecc (lit 0.8) then M' else Math_PI) = E0).
      { subst E0. rewrite lit_08. real_ops. unfold Rltb.
        destruct (Rlt_dec ecc 0.8); reflexivity. }
      destruct (newton_loop_iterate ecc M' tol maxiter E0)
        as (k & Hk & Hres & Hbefore & Hstop).
      exists k. split; [exact Hk|]. split; [|split].
      * unfold solveKepler. cbv zeta. fold M'. rewrite HE0, Hres.
        apply newton_iterate_update.
      * intros j Hj Hsmall. apply small_update_lt in Hsmall.
        rewrite (Hbefore j Hj) in Hsmall. discriminate.
      * intros Hlt. destruct (Hstop Hlt) as (j & Hj & Hsmall).
        exists j. split; [exact Hj|]. apply small_update_lt. exact Hsmall.
  - apply default_tol_value.
  - reflexivity.
Qed.

(** *** When the validation is absent *)

Lemma Rfalsy_true (v : R) : Rfalsy v = true <-> v = 0.
Proof.
  unfold Rfalsy. destruct (Req_dec_T v 0); split; intros; try assumption;
    try reflexivity; try discriminate; contradiction.
Qed.

Lemma Rfalsy_false (v : R) : v <> 0 -> Rfalsy v = false.
Proof.
  intros Hv. unfold Rfalsy. destruct (Req_dec_T v 0);
    [contradiction | reflexivity].
Qed.

(** Over the reals the falsy axis is the axis 0. *)
Lemma falsy_axis_zero (obj : object R) :
  falsy_axis obj <-> exists el, elements obj = Some el /\ a_AU el = JNum 0.
Proof.
  unfold falsy_axis. split.
  - intros (el & a & Hel & Ha & Hfalsy).
    apply Rfalsy_true in Hfalsy. subst a. exists el. auto.
  - intros (el & Hel & Ha). exists el, 0. repeat split; try assumption.
    apply Rfalsy_true. reflexivity.
Qed.

(** No real is NaN or [-0]: what the loop reads is what is recorded. *)
Lemma plain_coordinates_real (obj : object R) : plain_coordinates obj.
Proof.
  intros arr v _ _ Hfalsy. apply Rfalsy_true in Hfalsy. subst v.
  symmetry. apply lit_0.
Qed.

Lemma rms_residual_nonneg (times : list R) (obj : object R) (a ecc i : R)
    (selected : list nat) :
  0 <= rms_residual times obj a ecc i selected.
Proof. unfold rms_residual. real_ops. apply sqrt_pos. Qed.

End RealProperties.


(** ** Examples *)

Module Examples.

Import RealNumber Pipeline Scenario RealProperties.
Local Open Scope R_scope.

Lemma one_is_truthy : falsy (1 : R) = false.
Proof. apply Rfalsy_false. lra. Qed.

Lemma recorded_object_valid (a : R) :
  validIdx (daily_grid 3) (recorded_object a 3) = [0; 1; 2]%nat /\
  validIdx (daily_grid 9) (recorded_object a 9)
  = [0; 1; 2; 3; 4; 5; 6; 7; 8]%nat.
Proof. split; reflexivity. Qed.

Lemma recorded_object_complete (a : R) (len : nat) :
  complete_elements (recorded_object a len).
Proof.
  exists {| a_AU := JNum a; e := JNum 0; i_deg := JNum 0 |}, a, 0, 0.
  repeat split; reflexivity.
Qed.

Lemma recorded_object_count (a : R) :
  valid_count (daily_grid 3) (recorded_object a 3) = 3%nat.
Proof.
  unfold valid_count. rewrite (proj1 (recorded_object_valid a)). reflexivity.
Qed.

(** The axis 0 is rejected, and so is a call that asks for no sample. *)
Lemma recorded_object_rejected :
  crossValidateElements (daily_grid 3) (recorded_object 0 3) 10 = None /\
  crossValidateElements (daily_grid 3) (recorded_object 1 3) 0 = None.
Proof.
  split.
  - apply crossValidate_falsy_axis, falsy_axis_zero.
    eexists. split; reflexivity.
  - unfold crossValidateElements.
    cbn [elements recorded_object a_AU e i_deg truthy_number defined_number].
    rewrite one_is_truthy, (proj1 (recorded_object_valid 1)). reflexivity.
Qed.


(** An object with complete elements whose semi-major axis is 0 and with
    three valid samples gets [null]; and so does, through the test
    [count === 0], the same object with the axis 1 when no sample is asked
    for. *)
Lemma zero_axis_absent :
  (crossValidateElements (daily_grid 3) (recorded_object 0 3) 10 = None /\
   ~ ((valid_count (daily_grid 3) (recorded_object 0 3) < 3)%nat \/
      ~ complete_elements (recorded_object 0 3))) /\
  (crossValidateElements (daily_grid 3) (recorded_object 1 3) 0 = None /\
   ~ ((valid_count (daily_grid 3) (recorded_object 1 3) < 3)%nat \/
      ~ complete_elements (recorded_object 1 3))).
Proof.
  assert (Hwell : forall a,
             ~ ((valid_count (daily_grid 3) (recorded_object a 3) < 3)%nat \/
                ~ complete_elements (recorded_object a 3))).
  { intros a [Hfew | Hinc].
    - rewrite recorded_object_count in Hfew. lia.
    - apply Hinc, recorded_object_complete. }
  destruct recorded_object_rejected as [Hzero Hnone].
  split; split; try apply Hwell; assumption.
Qed.

(** An eccentricity that is [null] is no number, and yet the guard lets it
    through: the object gets a result, computed with the eccentricity 0. *)
Lemma null_eccentricity_accepted :
  ~ complete_elements (null_eccentricity_object 3) /\
  crossValidateElements (daily_grid 3) (null_eccentricity_object 3) 10
  = crossValidateElements (daily_grid 3) (recorded_object 1 3) 10 /\
  exists res,
    crossValidateElements (daily_grid 3) (null_eccentricity_object 3) 10
    = Some res.
Proof.
  assert (Hsame :
            crossValidateElements (daily_grid 3) (null_eccentricity_object 3) 10
            = crossValidateElements (daily_grid 3) (recorded_object 1 3) 10).
  { unfold crossValidateElements.
    cbn [elements recorded_object null_eccentricity_object a_AU e i_deg
         truthy_number defined_number].
    rewrite lit_0. reflexivity. }
  split; [|split].
  - intros (el & a & ecc & i & Hel & _ & He & _).
    simpl in Hel. injection Hel as <-. discriminate He.
  - exact Hsame.
  - rewrite Hsame. eexists.
    eapply crossValidate_computed.
    + reflexivity.
    + cbn [elements recorded_object a_AU truthy_number].
      rewrite one_is_truthy. reflexivity.
    + reflexivity.
    + reflexivity.
    + rewrite recorded_object_count. lia.
    + lia.
Qed.


(** C5, as stated, fails: of nine valid samples, five are selected with
    stride 1, the first five, and the last four are never sampled. *)
Lemma selection_stops_short :
  let valid := validIdx (daily_grid 9) (recorded_object 1 9) in
  (3 <= length valid)%nat /\
  select_samples valid 5 = [0; 1; 2; 3; 4]%nat /\
  ~ spans_valid_range valid 5.
Proof.
  cbv zeta. rewrite (proj2 (recorded_object_valid 1)).
  split; [simpl; lia|]. split; [reflexivity|].
  unfold spans_valid_range. cbn. lia.
Qed.

(** *** Instances of the theorems *)

Lemma thousand_valid :
  length (validIdx (daily_grid 1000) (recorded_object 1 1000)) = 1000%nat.
Proof. lazy. reflexivity. Qed.



(** C5 on five samples of a thousand: stride 200, up to the end of the
    range. *)
Lemma sample_selection_witness :
  let valid := validIdx (daily_grid 1000) (recorded_object 1 1000) in
  sample_step (length valid) 5 = 200%nat /\
  length (select_samples valid 5) = 5%nat /\
  increasing (select_samples valid 5) /\
  spans_valid_range valid 5.
Proof.
  cbv zeta.
  assert (Hv : (3 <= length (validIdx (daily_grid 1000)
                                      (recorded_object 1 1000)))%nat)
    by (rewrite thousand_valid; lia).
  assert (Hn : (1 <= 5)%nat) by lia.
  destruct (@sample_selection R (daily_grid 1000) (recorded_object 1 1000)
                              5%nat Hv Hn)
    as (_ & _ & _ & Hincr & _ & _ & Hcase).
  destruct (Hcase thousand_valid eq_refl) as (Hstride & Hlen & Hspan).
  repeat split; assumption.
Defined.

(** C10 on three daily samples: the axis 0 is rejected, the axis 1 with
    [e = i = 0] is not. *)
Lemma falsy_axis_rejected_witness :
  crossValidateElements (daily_grid 3) (recorded_object 0 3) 10 = None /\
  exists res,
    crossValidateElements (daily_grid 3) (recorded_object 1 3) 10 = Some res.
Proof.
  split.
  - apply (proj1 (@falsy_axis_rejected R _ (daily_grid 3) (recorded_object 0 3)
                                       10%nat)).
    apply falsy_axis_zero. eexists. split; reflexivity.
  - eapply (proj2 (@falsy_axis_rejected R _ (daily_grid 3)
                                        (recorded_object 1 3) 10%nat)).
    + reflexivity.
    + reflexivity.
    + simpl. f_equal. symmetry. apply lit_0.
    + simpl. f_equal. symmetry. apply lit_0.
    + apply one_is_truthy.
    + unfold valid_count. rewrite (proj1 (recorded_object_valid 1)).
      simpl. lia.
    + lia.
Defined.

(** C6 on a circular orbit of one astronomical unit, half a year after the
    epoch. *)
Lemma circular_orbit_radius_witness :
  0 < 1 /\
  norm3 (elementsToPosition 1 0 0 0 102.9 100.5 2451545 (Some 2451727.625))
  = 1 * 149597870.7.
Proof.
  split; [lra|]. apply circular_orbit_radius. lra.
Defined.


End Examples.

(** ** The binary64 instance *)

Module FloatExamples.

Import FloatNumber.

Section AnyHost.

(** Whatever the host's [Math.sin], [Math.cos], [Math.atan2] and [%]. *)
Variables (host_sin host_cos : float -> float).
Variables (host_atan2 host_rem : float -> float -> float).

Local Abbreviation host :=
  (float_JSNumber host_sin host_cos host_atan2 host_rem).

(** The literals are the doubles that the script's literals denote. *)
Lemma literals_binary64 :
  @AU_KM float host = 0x1.1d55d5d666666p+27%float /\
  @MU_SUN float host = 132712440018%float /\
  @default_tol float host = 0x1.12e0be826d695p-30%float /\
  @lit float host 0.8 = 0x1.999999999999ap-1%float.
Proof. repeat split; vm_compute; reflexivity. Qed.

(** NaN and both zeros are falsy. *)
Lemma float_falsy_values :
  @falsy float host nan = true /\
  @falsy float host 0%float = true /\
  @falsy float host (-0)%float = true /\
  @falsy float host 1%float = false.
Proof. repeat split; vm_compute; reflexivity. Qed.

(** A negative semi-major axis gives a NaN mean motion, the axis 0 an
    infinite one, and an eccentricity above 1 a NaN [sqrt(1 - e*e)]: the
    script goes on computing with them. *)
Lemma invalid_elements_degrade :
  is_nan (@mean_motion float host (-1 * @AU_KM float host)%float) = true /\
  @mean_motion float host (0 * @AU_KM float host)%float = infinity /\
  is_nan (@Math_sqrt float host (1 - 2 * 2)%float) = true.
Proof. repeat split; vm_compute; reflexivity. Qed.

(** An axis that is NaN is rejected like the axis 0. *)
Lemma nan_axis_absent (times : list float) (obj : object float)
    (el : elements_t float) (numSamples : nat) :
  elements obj = Some el -> a_AU el = JNum nan ->
  @crossValidateElements float host times obj numSamples = None.
Proof.
  intros Hel Ha. apply crossValidate_falsy_axis.
  exists el, nan. repeat split; assumption || reflexivity.
Qed.

End AnyHost.

End FloatExamples.

(** * The viewer *)

(** ** The batch cross-validation *)

Section BatchValidation.

Context {num : Type} `{JSNumber num}.

Variable times : list num.

Lemma validated_cons (obj : Scene.entry num) (rest : list (Scene.entry num)) :
  validated times (obj :: rest)
  = match crossValidateElements times (Scene.body obj) 6 with
    | Some res => [report_of obj res]
    | None => []
    end ++ validated times rest.
Proof. reflexivity. Qed.

(** Below the limit the loop appends the reports of the objects that
    validate, until it has [limit] of them. *)
Lemma crossValidateAll_loop_below (limit : nat) :
  forall objects results examined,
    examined < limit ->
    crossValidateAll_loop times limit objects results examined
    = results ++ firstn (limit - examined) (validated times objects).
Proof.
  induction objects as [|obj rest IH]; intros results examined Hlt.
  - simpl. rewrite firstn_nil, app_nil_r. reflexivity.
  - rewrite validated_cons. cbn [crossValidateAll_loop].
    destruct (elements (Scene.body obj)) as [el|] eqn:Hel.
    + destruct (crossValidateElements times (Scene.body obj) 6) as [res|].
      * destruct (Nat.leb_spec limit (S examined)) as [Hle | Hgt].
        -- replace (limit - examined) with 1 by lia. reflexivity.
        -- rewrite IH by lia.
           replace (limit - examined) with (S (limit - S examined)) by lia.
           cbn [app firstn]. rewrite <- app_assoc. reflexivity.
      * destruct (Nat.leb_spec limit examined) as [Hle | Hgt]; [lia|].
        apply IH. exact Hlt.
    + assert (Hnull : crossValidateElements times (Scene.body obj) 6 = None).
      { unfold crossValidateElements. rewrite Hel. reflexivity. }
      rewrite Hnull. apply IH. exact Hlt.
Qed.

End BatchValidation.

(** X1. With a limit of at least 1, [crossValidateAll] collects the reports
    of the first [limit] objects of the scene whose cross-validation with
    six samples is not [null], in the order of the scene, with their
    identifiers and classes; it never collects more than [limit]. *)
Theorem crossValidateAll_first_validated :
  forall (num : Type) (N : JSNumber num) (times : list num)
         (objects : list (Scene.entry num)) (limit : nat),
    1 <= limit ->
    crossValidateAll times objects limit
    = firstn limit (validated times objects) /\
    length (crossValidateAll times objects limit) <= limit.
Proof.
  intros num N times objects limit Hlimit.
  assert (Heq : crossValidateAll times objects limit
                = firstn limit (validated times objects)).
  { unfold crossValidateAll. rewrite crossValidateAll_loop_below by lia.
    rewrite Nat.sub_0_r. reflexivity. }
  split; [exact Heq|].
  rewrite Heq. apply firstn_le_length.
Qed.

(** X2. With the limit 0, [crossValidateAll] still examines one object:
    the limit is tested after an object with elements has been examined, so
    the first such object of the scene is cross-validated, and reported when
    its validation is not [null], and the loop stops there. *)
Theorem crossValidateAll_limit_zero :
  forall (num : Type) (N : JSNumber num) (times : list num)
         (objects : list (Scene.entry num)),
    crossValidateAll times objects 0
    = match first_with_elements objects with
      | None => []
      | Some obj =>
          match crossValidateElements times (Scene.body obj) 6 with
          | Some res => [report_of obj res]
          | None => []
          end
      end.
Proof.
  intros num N times objects. unfold crossValidateAll, first_with_elements.
  induction objects as [|obj rest IH].
  - reflexivity.
  - cbn [crossValidateAll_loop find].
    destruct (elements (Scene.body obj)) as [el|].
    + destruct (crossValidateElements times (Scene.body obj) 6); reflexivity.
    + exact IH.
Qed.

(** ** The shuffle *)

Section Shuffle.

Context {A : Type}.

Lemma length_assign (a : list A) : forall i v,
  length (assign a i v) = length a.
Proof.
  induction a as [|u rest IH]; intros [|i] v; simpl; try reflexivity.
  rewrite IH. reflexivity.
Qed.

(** Assigning [v] over [w] exchanges them in the multiset. *)
Lemma assign_permutation (a : list A) : forall i v w,
  nth_error a i = Some w ->
  Permutation (v :: a) (w :: assign a i v).
Proof.
  induction a as [|u rest IH]; intros [|i] v w Hw; simpl in Hw;
    try discriminate.
  - injection Hw as <-. simpl. apply perm_swap.
  - simpl. apply (IH i v w) in Hw.
    apply perm_trans with (u :: v :: rest); [apply perm_swap|].
    apply perm_trans with (u :: w :: assign rest i v);
      [apply perm_skip; exact Hw | apply perm_swap].
Qed.

Lemma swap_cons (u : A) (rest : list A) (i j : nat) :
  swap (u :: rest) (S i) (S j) = u :: swap rest i j.
Proof.
  unfold swap. simpl.
  destruct (nth_error rest i) as [ai|]; [|reflexivity].
  destruct (nth_error rest j) as [aj|]; reflexivity.
Qed.

Lemma swap_permutation (a : list A) : forall i j, Permutation a (swap a i j).
Proof.
  induction a as [|u rest IH]; intros i j.
  - unfold swap. destruct i, j; apply Permutation_refl.
  - destruct i as [|i], j as [|j].
    + apply Permutation_refl.
    + unfold swap. simpl.
      destruct (nth_error rest j) as [aj|] eqn:Hj; [|apply Permutation_refl].
      apply assign_permutation. exact Hj.
    + unfold swap. simpl.
      destruct (nth_error rest i) as [ai|] eqn:Hi; [|apply Permutation_refl].
      apply assign_permutation. exact Hi.
    + rewrite swap_cons. apply perm_skip, IH.
Qed.

Lemma shuffle_from_permutation (draw : nat -> nat) : forall i (a : list A),
  Permutation a (shuffle_from draw i a).
Proof.
  induction i as [|i IH]; intro a; simpl.
  - apply Permutation_refl.
  - eapply perm_trans; [apply swap_permutation | apply IH].
Qed.

(** The element at the head of the loop goes to its final place: after the
    iteration [i] the positions above [i] are not touched again. *)
Lemma assign_nth_other (a : list A) : forall i k v,
  k <> i -> nth_error (assign a i v) k = nth_error a k.
Proof.
  induction a as [|u rest IH]; intros [|i] [|k] v Hk; simpl;
    try reflexivity; try contradiction.
  apply IH. congruence.
Qed.

Lemma swap_nth_other (a : list A) (i j k : nat) :
  k <> i -> k <> j -> nth_error (swap a i j) k = nth_error a k.
Proof.
  intros Hi Hj. unfold swap.
  destruct (nth_error a i) as [ai|]; [|reflexivity].
  destruct (nth_error a j) as [aj|]; [|reflexivity].
  rewrite !assign_nth_other by assumption. reflexivity.
Qed.

Lemma shuffle_from_above (draw : nat -> nat) :
  (forall i, draw i <= i) ->
  forall i (a : list A) k,
    i < k -> nth_error (shuffle_from draw i a) k = nth_error a k.
Proof.
  intros Hdraw. induction i as [|i IH]; intros a k Hk; simpl.
  - reflexivity.
  - rewrite IH by lia. apply swap_nth_other; [lia|].
    pose proof (Hdraw (S i)). lia.
Qed.

End Shuffle.

(** X3. Whatever indices the random generator draws, each one [j <= i] at
    the iteration [i], [shuffleArray] returns a permutation of its array:
    no element is lost and none is duplicated, and the length is kept. *)
Theorem shuffleArray_permutation :
  forall (A : Type) (draw : nat -> nat) (a : list A),
    (forall i, draw i <= i) ->
    Permutation a (shuffleArray draw a) /\
    length (shuffleArray draw a) = length a.
Proof.
  intros A draw a Hdraw.
  assert (Hperm : Permutation a (shuffleArray draw a))
    by apply shuffle_from_permutation.
  split; [exact Hperm|].
  symmetry. apply Permutation_length. exact Hperm.
Qed.

(** ** The active set *)

Lemma set_has_app (s t : list String.string) (w : String.string) :
  set_has (s ++ t) w = set_has s w || set_has t w.
Proof. unfold set_has. apply existsb_app. Qed.

Lemma set_has_add (s : list String.string) (v w : String.string) :
  set_has (set_add s v) w = set_has s w || String.eqb w v.
Proof.
  unfold set_add. destruct (set_has s v) eqn:Hv.
  - destruct (String.eqb_spec w v) as [-> | Hne].
    + rewrite Hv. reflexivity.
    + rewrite orb_false_r. reflexivity.
  - rewrite set_has_app. unfold set_has at 2. simpl.
    rewrite orb_false_r. reflexivity.
Qed.

Lemma set_has_delete (s : list String.string) (v w : String.string) :
  set_has (set_delete s v) w = set_has s w && negb (String.eqb w v).
Proof.
  unfold set_delete, set_has. induction s as [|u s IH]; simpl.
  - reflexivity.
  - destruct (String.eqb_spec v u) as [<- | Hvu]; simpl.
    + rewrite IH. destruct (String.eqb w v); simpl;
        [rewrite andb_false_r; reflexivity | reflexivity].
    + rewrite IH. destruct (String.eqb_spec w u) as [-> | Hwu]; simpl.
      * destruct (String.eqb_spec u v) as [Heq | _];
          [symmetry in Heq; contradiction | reflexivity].
      * reflexivity.
Qed.

Section Toggle.

Context {num : Type}.

Lemma set_has_fold_add (l : list (Scene.entry num)) :
  forall (s : list String.string) (w : String.string),
    set_has (fold_left (fun s o => set_add s (Scene.id o)) l s) w
    = set_has s w || has_id l w.
Proof.
  induction l as [|o l IH]; intros s w; simpl.
  - rewrite orb_false_r. reflexivity.
  - rewrite IH, set_has_add, orb_assoc. reflexivity.
Qed.

Lemma set_has_fold_delete (l : list (Scene.entry num)) :
  forall (s : list String.string) (w : String.string),
    set_has (fold_left (fun s o => set_delete s (Scene.id o)) l s) w
    = set_has s w && negb (has_id l w).
Proof.
  induction l as [|o l IH]; intros s w; simpl.
  - rewrite andb_true_r. reflexivity.
  - rewrite IH, set_has_delete, negb_orb, andb_assoc. reflexivity.
Qed.

Lemma has_id_In (l : list (Scene.entry num)) (w : String.string) :
  has_id l w = true <-> exists o, In o l /\ Scene.id o = w.
Proof.
  unfold has_id. rewrite existsb_exists. split.
  - intros (o & Hin & Heq). apply String.eqb_eq in Heq. exists o. auto.
  - intros (o & Hin & Heq). exists o. split; [exact Hin|].
    apply String.eqb_eq. auto.
Qed.

Lemma has_id_permutation (l l' : list (Scene.entry num)) (w : String.string) :
  Permutation l l' -> has_id l w = has_id l' w.
Proof.
  intros Hperm. apply eq_true_iff_eq. rewrite !has_id_In.
  split; intros (o & Hin & Heq); exists o; split; try exact Heq.
  - eapply Permutation_in; eauto.
  - eapply Permutation_in; [apply Permutation_sym|]; eauto.
Qed.

End Toggle.

Lemma In_firstn {A : Type} (k : nat) (l : list A) (v : A) :
  In v (firstn k l) -> In v l.
Proof.
  intros Hin. rewrite <- (firstn_skipn k l). apply in_or_app. left. exact Hin.
Qed.

Lemma keep_count_pos (len : nat) (frac : Q) : 1 <= keep_count len frac.
Proof. unfold keep_count. lia. Qed.

Lemma keep_count_all (len : nat) (frac : Q) :
  (frac == 1)%Q -> keep_count len frac = Nat.max 1 len.
Proof.
  intros Hfrac. unfold keep_count.
  assert (Hprod : (inject_Z (Z.of_nat len) * frac == inject_Z (Z.of_nat len))%Q)
    by (rewrite Hfrac; ring).
  rewrite Hprod, Qfloor_Z. lia.
Qed.

(** X4. Unchecking a class removes from [activeObjects] exactly the
    identifiers of the objects of the class: afterwards an identifier is
    active if and only if it was active and is not the identifier of an
    object of the class. *)
Theorem onClassToggle_unchecked :
  forall (num : Type) (draw : nat -> nat) (group : list (Scene.entry num))
         (frac : Q) (activeObjects : list String.string) (w : String.string),
    set_has (onClassToggle draw group frac false activeObjects) w
    = set_has activeObjects w && negb (has_id group w).
Proof.
  intros num draw group frac activeObjects w.
  unfold onClassToggle. simpl. apply set_has_fold_delete.
Qed.

Section ToggleOn.

Context {num : Type}.

Variable draw : nat -> nat.
Variable group : list (Scene.entry num).
Variable frac : Q.
Variable activeObjects : list String.string.

(** The objects that a checked class adds: the first [nKeep] of the
    shuffled array. *)
Lemma onClassToggle_checked_has (w : String.string) :
  set_has (onClassToggle draw group frac true activeObjects) w
  = set_has activeObjects w
    || has_id (firstn (keep_count (length (shuffleArray draw group)) frac)
                      (shuffleArray draw group)) w.
Proof. unfold onClassToggle. simpl. apply set_has_fold_add. Qed.

Lemma kept_in_group (k : nat) (w : String.string) :
  has_id (firstn k (shuffleArray draw group)) w = true ->
  has_id group w = true.
Proof.
  rewrite !has_id_In. intros (o & Hin & Heq). exists o. split; [|exact Heq].
  apply In_firstn in Hin.
  eapply Permutation_in; [apply Permutation_sym|exact Hin].
  apply shuffle_from_permutation.
Qed.

(** At the fraction 1 the whole array is kept. *)
Lemma onClassToggle_whole_class (w : String.string) :
  (frac == 1)%Q ->
  set_has (onClassToggle draw group frac true activeObjects) w
  = set_has activeObjects w || has_id group w.
Proof.
  intros Hfrac.
  rewrite onClassToggle_checked_has, (keep_count_all _ Hfrac).
  pose proof (shuffle_from_permutation draw (length group - 1) group) as Hperm.
  fold (shuffleArray draw group) in Hperm.
  rewrite firstn_all2 by lia.
  f_equal. symmetry. apply has_id_permutation. exact Hperm.
Qed.

End ToggleOn.

(** X5. Checking a class, whatever the fraction and the random draws, keeps
    every identifier that was active, activates only identifiers of objects
    of the class, and activates at least one object of a class that is not
    empty. *)
Theorem onClassToggle_checked :
  forall (num : Type) (draw : nat -> nat) (group : list (Scene.entry num))
         (frac : Q) (activeObjects : list String.string),
    (forall i, draw i <= i) ->
    let after := onClassToggle draw group frac true activeObjects in
    (forall w, set_has activeObjects w = true -> set_has after w = true) /\
    (forall w, set_has after w = true ->
               set_has activeObjects w = true \/ has_id group w = true) /\
    (group <> [] ->
     exists o, In o group /\ set_has after (Scene.id o) = true).
Proof.
  intros num draw group frac activeObjects Hdraw after. subst after.
  split; [|split].
  - intros w Hw. rewrite onClassToggle_checked_has, Hw. reflexivity.
  - intros w Hw. rewrite onClassToggle_checked_has in Hw.
    apply orb_prop in Hw. destruct Hw as [Hw | Hw]; [left; exact Hw|].
    right. eapply kept_in_group. exact Hw.
  - intros Hne.
    pose proof (shuffle_from_permutation draw (length group - 1) group) as Hperm.
    fold (shuffleArray draw group) in Hperm.
    pose proof (keep_count_pos (length (shuffleArray draw group)) frac) as Hk.
    destruct (shuffleArray draw group) as [|o arr] eqn:Harr.
    + apply Permutation_sym, Permutation_nil in Hperm. contradiction.
    + exists o. split.
      * eapply Permutation_in; [apply Permutation_sym; exact Hperm|].
        left. reflexivity.
      * rewrite onClassToggle_checked_has, Harr.
        destruct (keep_count (length (o :: arr)) frac) as [|k]; [lia|].
        simpl. rewrite String.eqb_refl. apply orb_true_r.
Qed.

(** X6. Checking a class at the fraction 1, the default, activates every
    object of the class, whatever the random draws: afterwards an identifier
    is active if and only if it was active or is the identifier of an object
    of the class. *)
Theorem onClassToggle_checked_all :
  forall (num : Type) (draw : nat -> nat) (group : list (Scene.entry num))
         (frac : Q) (activeObjects : list String.string) (w : String.string),
    (forall i, draw i <= i) ->
    (frac == 1)%Q ->
    set_has (onClassToggle draw group frac true activeObjects) w
    = set_has activeObjects w || has_id group w.
Proof.
  intros num draw group frac activeObjects w Hdraw Hfrac.
  apply onClassToggle_whole_class. exact Hfrac.
Qed.

(** X7. Checking a class and then unchecking it leaves no object of the
    class active and restores the rest of [activeObjects]: the identifiers
    that were active and belong to no object of the class. *)
Theorem onClassToggle_check_uncheck :
  forall (num : Type) (draw draw' : nat -> nat)
         (group : list (Scene.entry num)) (frac frac' : Q)
         (activeObjects : list String.string) (w : String.string),
    (forall i, draw i <= i) ->
    set_has (onClassToggle draw' group frac' false
               (onClassToggle draw group frac true activeObjects)) w
    = set_has activeObjects w && negb (has_id group w).
Proof.
  intros num draw draw' group frac frac' activeObjects w Hdraw.
  unfold onClassToggle at 1. cbn [negb]. cbv iota.
  rewrite set_has_fold_delete, onClassToggle_checked_has.
  destruct (has_id group w) eqn:Hgroup.
  - rewrite !andb_false_r. reflexivity.
  - destruct (has_id (firstn _ (shuffleArray draw group)) w) eqn:Hkept.
    + apply kept_in_group in Hkept. congruence.
    + rewrite orb_false_r. reflexivity.
Qed.

(** ** The objects by class *)

Section Grouping.

Context {num : Type}.

Lemma group_get_push (m : list (String.string * list (Scene.entry num)))
    (o : Scene.entry num) (cls : String.string) :
  group_get (group_push m o) cls
  = if String.eqb cls (Scene.class o)
    then Some (match group_get m cls with
               | Some arr => arr ++ [o]
               | None => [o]
               end)
    else group_get m cls.
Proof.
  induction m as [|[k arr] rest IH]; simpl.
  - reflexivity.
  - destruct (String.eqb_spec (Scene.class o) k) as [Hk | Hk]; simpl.
    + subst k. destruct (String.eqb cls (Scene.class o)); reflexivity.
    + rewrite IH.
      destruct (String.eqb_spec cls k) as [-> | Hck].
      * destruct (String.eqb_spec k (Scene.class o)) as [Heq | _];
          [symmetry in Heq; contradiction | reflexivity].
      * reflexivity.
Qed.

Lemma of_class_cons (cls : String.string) (o : Scene.entry num)
    (rest : list (Scene.entry num)) :
  of_class cls (o :: rest)
  = if String.eqb cls (Scene.class o) then o :: of_class cls rest
    else of_class cls rest.
Proof. reflexivity. Qed.

Lemma group_get_fold (cls : String.string) :
  forall (objects : list (Scene.entry num))
         (m : list (String.string * list (Scene.entry num))),
    group_get (fold_left group_push objects m) cls
    = match of_class cls objects with
      | [] => group_get m cls
      | l => Some (match group_get m cls with
                   | Some arr => arr ++ l
                   | None => l
                   end)
      end.
Proof.
  induction objects as [|o rest IH]; intro m.
  - reflexivity.
  - cbn [fold_left]. rewrite IH, group_get_push, of_class_cons.
    destruct (String.eqb cls (Scene.class o)).
    + destruct (of_class cls rest) as [|o' l];
        destruct (group_get m cls) as [arr|];
        cbv zeta; rewrite <- ?app_assoc; reflexivity.
    + reflexivity.
Qed.

Lemma grouping_get (objects : list (Scene.entry num))
    (cls : String.string) :
  group_get (fold_left group_push objects []) cls
  = match of_class cls objects with
    | [] => None
    | l => Some l
    end.
Proof.
  rewrite group_get_fold.
  destruct (of_class cls objects); reflexivity.
Qed.

Lemma initUI_step_thrown (objects : list (Scene.entry num)) :
  fold_left initUI_step objects None = None.
Proof. induction objects as [|o rest IH]; [reflexivity | exact IH]. Qed.

(** When the loop does not throw it has done the two statements on the own
    properties for every object. *)
Lemma initUI_step_done :
  forall (objects : list (Scene.entry num)) m0 m,
    fold_left initUI_step objects (Some m0) = Some m ->
    m = fold_left group_push objects m0.
Proof.
  induction objects as [|o rest IH]; intros m0 m Hdone.
  - simpl in Hdone. injection Hdone as <-. reflexivity.
  - cbn [fold_left] in *. unfold initUI_step at 2 in Hdone.
    destruct (group_get m0 (Scene.class o)).
    + apply IH. exact Hdone.
    + destruct (inherited (Scene.class o)).
      * rewrite initUI_step_thrown in Hdone. discriminate.
      * apply IH. exact Hdone.
Qed.

Lemma initUI_step_plain :
  forall (objects : list (Scene.entry num)) m0,
    (forall o, In o objects -> inherited (Scene.class o) = false) ->
    fold_left initUI_step objects (Some m0)
    = Some (fold_left group_push objects m0).
Proof.
  induction objects as [|o rest IH]; intros m0 Hplain.
  - reflexivity.
  - cbn [fold_left]. unfold initUI_step at 2.
    rewrite (Hplain o) by (left; reflexivity).
    destruct (group_get m0 (Scene.class o));
      apply IH; intros o' Hin; apply Hplain; right; exact Hin.
Qed.

Lemma plain_keys_push m (o : Scene.entry num) :
  plain_keys m -> inherited (Scene.class o) = false ->
  plain_keys (group_push m o).
Proof.
  intros Hm Ho cls arr. rewrite group_get_push.
  destruct (String.eqb_spec cls (Scene.class o)) as [-> | _].
  - intros _. exact Ho.
  - apply Hm.
Qed.

Lemma initUI_step_throws :
  forall (objects : list (Scene.entry num)) m0,
    plain_keys m0 ->
    (exists o, In o objects /\ inherited (Scene.class o) = true) ->
    fold_left initUI_step objects (Some m0) = None.
Proof.
  induction objects as [|o rest IH]; intros m0 Hkeys (bad & Hin & Hbad).
  - contradiction.
  - cbn [fold_left]. unfold initUI_step at 2.
    destruct (inherited (Scene.class o)) eqn:Ho.
    + destruct (group_get m0 (Scene.class o)) as [arr|] eqn:Hget.
      * apply Hkeys in Hget. congruence.
      * apply initUI_step_thrown.
    + assert (Hrest : exists o', In o' rest /\ inherited (Scene.class o') = true).
      { destruct Hin as [<- | Hin]; [congruence|]. exists bad. auto. }
      destruct (group_get m0 (Scene.class o));
        apply IH; try exact Hrest; apply plain_keys_push; assumption.
Qed.

End Grouping.

(** X8. [initUI] groups the objects of the scene by class, unless it
    throws. When no class of the scene is the name of a property inherited
    from [Object.prototype], the array stored under a class holds exactly
    the objects of that class, in the order of the scene, and a class
    without object has no entry, so no array is empty and every object of
    the scene is in the array of its class. When an object of the scene has
    such a class, [constructor] or [__proto__] for instance, the loop throws
    a TypeError and groups nothing. *)
Theorem objectsByClass_groups :
  forall (num : Type) (objects : list (Scene.entry num)),
    ((forall o, In o objects -> inherited (Scene.class o) = false) ->
     exists m,
       objectsByClass objects = Some m /\
       (forall cls,
           group_get m cls = match of_class cls objects with
                             | [] => None
                             | l => Some l
                             end) /\
       (forall o, In o objects ->
                  exists arr,
                    group_get m (Scene.class o) = Some arr /\ In o arr)) /\
    ((exists o, In o objects /\ inherited (Scene.class o) = true) ->
     objectsByClass objects = None).
Proof.
  intros num objects. split.
  - intros Hplain. exists (fold_left group_push objects []).
    split; [apply initUI_step_plain; exact Hplain|].
    split; [intro cls; apply grouping_get|].
    intros o Hin.
    assert (Ho : In o (of_class (Scene.class o) objects)).
    { unfold of_class. apply filter_In. split; [exact Hin|].
      apply String.eqb_refl. }
    rewrite grouping_get.
    destruct (of_class (Scene.class o) objects) as [|o' l].
    + contradiction.
    + exists (o' :: l). split; [reflexivity | exact Ho].
  - intros Hbad. apply initUI_step_throws; [|exact Hbad].
    intros cls arr Hget. discriminate Hget.
Qed.

(** X9. [redrawBodies] draws at most [MAX_VISIBLE_BODIES] objects, all of
    them active; and once a class has been checked at the fraction 1 on the
    arrays of [initUI], every object of the class is drawn as long as no
    more than [MAX_VISIBLE_BODIES] objects are active. *)
Theorem drawObjs_after_check :
  forall (num : Type) (objects group : list (Scene.entry num))
         (m : list (String.string * list (Scene.entry num)))
         (cls : String.string) (draw : nat -> nat)
         (activeObjects : list String.string) (MAX_VISIBLE_BODIES : nat),
    (forall i, draw i <= i) ->
    objectsByClass objects = Some m ->
    group_get m cls = Some group ->
    let after := onClassToggle draw group 1 true activeObjects in
    length (drawObjs MAX_VISIBLE_BODIES objects after) <= MAX_VISIBLE_BODIES /\
    (forall o, In o (drawObjs MAX_VISIBLE_BODIES objects after) ->
               In o objects /\ set_has after (Scene.id o) = true) /\
    (length (filter (fun o => set_has after (Scene.id o)) objects)
     <= MAX_VISIBLE_BODIES ->
     forall o, In o objects -> Scene.class o = cls ->
               In o (drawObjs MAX_VISIBLE_BODIES objects after)).
Proof.
  intros num objects group m cls draw activeObjects MAX_VISIBLE_BODIES
         Hdraw Hdone Hgroup after.
  split; [|split].
  - unfold drawObjs. apply firstn_le_length.
  - intros o Hin. unfold drawObjs in Hin. apply In_firstn in Hin.
    apply filter_In in Hin. exact Hin.
  - intros Hfew o Hin Hcls. unfold drawObjs.
    rewrite firstn_all2 by exact Hfew.
    apply filter_In. split; [exact Hin|].
    subst after. rewrite onClassToggle_whole_class by reflexivity.
    apply initUI_step_done in Hdone. subst m.
    rewrite grouping_get in Hgroup.
    assert (Ho : In o (of_class cls objects)).
    { unfold of_class. apply filter_In. split; [exact Hin|].
      apply String.eqb_eq. auto. }
    destruct (of_class cls objects) as [|o' l]; [contradiction|].
    injection Hgroup as <-.
    assert (Hid : has_id (o' :: l) (Scene.id o) = true).
    { apply has_id_In. exists o. auto. }
    rewrite Hid. apply orb_true_r.
Qed.

(** ** The subsample fraction *)

Module FloatOrder.

Import SpecFloat.

(** The comparison of binary64 numbers is antisymmetric, and is undefined
    only on NaN. *)
Lemma SFcompare_antisym (u v : spec_float) :
  SFcompare v u = option_map CompOpp (SFcompare u v).
Proof.
  destruct u as [su| su | | su mu eu], v as [sv | sv | | sv mv ev];
    try reflexivity;
    try (destruct su; reflexivity);
    try (destruct sv; reflexivity);
    try (destruct su, sv; reflexivity).
  simpl. destruct su, sv; try reflexivity;
    rewrite (Z.compare_antisym ev eu);
    destruct (ev ?= eu)%Z; simpl; try reflexivity;
    rewrite ?(Pos.compare_cont_antisym mu mv Eq); simpl;
    rewrite ?CompOpp_involutive; reflexivity.
Qed.

Lemma SFcompare_defined (u v : spec_float) :
  SFcompare u v = None -> SFcompare u u = None \/ SFcompare v v = None.
Proof.
  destruct u as [su| su | | su mu eu], v as [sv | sv | | sv mv ev]; simpl;
    intros Hnone; try discriminate; auto.
Qed.

Lemma is_nan_compare (a : float) :
  PrimFloat.is_nan a = false ->
  SFcompare (Prim2SF a) (Prim2SF a) <> None.
Proof.
  unfold PrimFloat.is_nan. rewrite eqb_spec. unfold SFeqb.
  destruct (SFcompare (Prim2SF a) (Prim2SF a)); [discriminate|].
  intros Habs. discriminate.
Qed.

Lemma ltb_leb (a b : float) :
  PrimFloat.ltb a b = true -> PrimFloat.leb a b = true.
Proof.
  rewrite ltb_spec, leb_spec. unfold SFltb, SFleb.
  destruct (SFcompare (Prim2SF a) (Prim2SF b)) as [[| |]|];
    intros; try discriminate; reflexivity.
Qed.

Lemma ltb_asym (a b : float) :
  PrimFloat.ltb a b = true -> PrimFloat.ltb b a = false.
Proof.
  rewrite !ltb_spec. unfold SFltb.
  rewrite (SFcompare_antisym (Prim2SF a) (Prim2SF b)).
  destruct (SFcompare (Prim2SF a) (Prim2SF b)) as [[| |]|];
    simpl; intros; try discriminate; reflexivity.
Qed.

Lemma ltb_not_nan (a b : float) :
  PrimFloat.ltb a b = true ->
  PrimFloat.is_nan a = false /\ PrimFloat.is_nan b = false.
Proof.
  unfold PrimFloat.is_nan. rewrite ltb_spec, !eqb_spec. unfold SFltb, SFeqb.
  destruct (Prim2SF a) as [su| su | | su mu eu], (Prim2SF b) as [sv | sv | | sv mv ev];
    simpl; intros; try discriminate; split; try reflexivity.
  all: try (rewrite Z.compare_refl, Pos.compare_cont_refl; destruct su; reflexivity).
  all: try (rewrite Z.compare_refl, Pos.compare_cont_refl; destruct sv; reflexivity).
  all: try (destruct su; reflexivity).
  all: try (destruct sv; reflexivity).
Qed.

Lemma not_ltb_leb (a b : float) :
  PrimFloat.is_nan a = false -> PrimFloat.is_nan b = false ->
  PrimFloat.ltb a b = false -> PrimFloat.leb b a = true.
Proof.
  intros Ha Hb. rewrite ltb_spec, leb_spec. unfold SFltb, SFleb.
  rewrite (SFcompare_antisym (Prim2SF a) (Prim2SF b)).
  destruct (SFcompare (Prim2SF a) (Prim2SF b)) as [[| |]|] eqn:Hcmp;
    simpl; intros; try discriminate; try reflexivity.
  apply SFcompare_defined in Hcmp.
  destruct Hcmp as [Hcmp | Hcmp];
    [apply is_nan_compare in Ha | apply is_nan_compare in Hb];
    contradiction.
Qed.

(** [Math.min(1, v)] and [Math.max(0, m)] on numbers. *)
Lemma Math_min_one (v : float) :
  PrimFloat.is_nan v = false ->
  FloatMath.Math_min 1%float v = if PrimFloat.ltb v 1%float then v else if PrimFloat.ltb 1%float v then 1%float else v.
Proof.
  intros Hv. unfold FloatMath.Math_min. rewrite Hv. cbn [orb].
  change (PrimFloat.is_nan 1%float) with false. cbn [orb].
  change (PrimFloat.get_sign 1%float) with false.
  destruct (PrimFloat.ltb 1%float v) eqn:H1v.
  - rewrite (@ltb_asym _ _ H1v). reflexivity.
  - destruct (PrimFloat.ltb v 1%float); reflexivity.
Qed.

Lemma Math_max_zero (m : float) :
  PrimFloat.is_nan m = false ->
  FloatMath.Math_max 0%float m = if PrimFloat.ltb 0%float m then m else 0%float.
Proof.
  intros Hm. unfold FloatMath.Math_max. rewrite Hm.
  change (PrimFloat.is_nan 0%float) with false. cbn [orb].
  change (PrimFloat.get_sign 0%float) with false.
  destruct (PrimFloat.ltb 0%float m); [reflexivity|].
  destruct (PrimFloat.ltb m 0%float); reflexivity.
Qed.

End FloatOrder.

(** X10. Whatever Number the input field of a class gives, NaN and the
    infinities included, the subsample fraction that is stored is a number
    of [[0, 1]]: NaN gives 1, and a number strictly between 0 and 1 is
    stored as it is. *)
Theorem subsample_fraction_range :
  forall val : float,
    let frac := FloatMath.subsample_fraction val in
    PrimFloat.is_nan frac = false /\
    PrimFloat.leb 0 frac = true /\
    PrimFloat.leb frac 1 = true /\
    (PrimFloat.is_nan val = true -> frac = 1%float) /\
    (PrimFloat.ltb 0 val = true -> PrimFloat.ltb val 1 = true -> frac = val).
Proof.
  intros val frac. subst frac. unfold FloatMath.subsample_fraction.
  destruct (PrimFloat.is_nan val) eqn:Hnan.
  - split; [reflexivity|]. split; [reflexivity|]. split; [reflexivity|].
    split; [reflexivity|].
    intros H0 _. apply FloatOrder.ltb_not_nan in H0. destruct H0 as [_ H0]. congruence.
  - rewrite (@FloatOrder.Math_min_one _ Hnan).
    destruct (PrimFloat.ltb val 1) eqn:Hv1.
    + rewrite (@FloatOrder.Math_max_zero _ Hnan).
      destruct (PrimFloat.ltb 0 val) eqn:H0v.
      * split; [exact Hnan|]. split; [apply FloatOrder.ltb_leb; exact H0v|].
        split; [apply FloatOrder.ltb_leb; exact Hv1|]. split; [discriminate|]. reflexivity.
      * split; [reflexivity|]. split; [reflexivity|]. split; [reflexivity|].
        split; discriminate.
    + destruct (PrimFloat.ltb 1 val) eqn:H1v.
      * split; [reflexivity|]. split; [reflexivity|]. split; [reflexivity|].
        split; discriminate.
      * rewrite (@FloatOrder.Math_max_zero _ Hnan).
        destruct (PrimFloat.ltb 0 val) eqn:H0v.
        -- split; [exact Hnan|]. split; [apply FloatOrder.ltb_leb; exact H0v|].
           split; [apply FloatOrder.not_ltb_leb; [reflexivity | exact Hnan | exact H1v]|].
           split; discriminate.
        -- split; [reflexivity|]. split; [reflexivity|]. split; [reflexivity|].
           split; discriminate.
Qed.

(** ** The time index *)

Module TimeIndex.

Import Lqa.

Lemma Qfloor_unique (q : Q) (k : Z) :
  (inject_Z k <= q)%Q -> (q < inject_Z (k + 1))%Q -> Qfloor q = k.
Proof.
  intros Hlow Hhigh.
  pose proof (Qfloor_le q) as Hfl. pose proof (Qlt_floor q) as Hfh.
  assert (H1 : (inject_Z k < inject_Z (Qfloor q + 1))%Q) by (eapply Qle_lt_trans; eauto).
  assert (H2 : (inject_Z (Qfloor q) < inject_Z (k + 1))%Q) by (eapply Qle_lt_trans; eauto).
  rewrite <- Zlt_Qlt in H1, H2. lia.
Qed.

(** Between 0 and the length the stored index is the floor. *)
Lemma updateScene_index_floor (len : nat) (q : Q) :
  (0 <= q)%Q -> (q < inject_Z (Z.of_nat len))%Q ->
  updateScene_index len q = Qfloor q.
Proof.
  intros Hq0 Hqlen. unfold updateScene_index.
  assert (Hfloor_lt : (Qfloor q < Z.of_nat len)%Z).
  { rewrite Zlt_Qlt. eapply Qle_lt_trans; [apply Qfloor_le | exact Hqlen]. }
  assert (Hfloor_0 : (0 <= Qfloor q)%Z).
  { change 0%Z with (Qfloor 0). apply Qfloor_resp_le. exact Hq0. }
  apply Qfloor_unique.
  - apply Q.max_le_iff. right. apply Q.min_glb_iff. split.
    + apply Qfloor_le.
    + rewrite <- Zle_Qle. lia.
  - apply Q.max_lub_lt_iff. split.
    + change 0%Q with (inject_Z 0). rewrite <- Zlt_Qlt. lia.
    + apply Q.min_lt_iff. left. apply Qlt_floor.
Qed.

(** Below 0 it is 0, and from the last index on it is the last index. *)
Lemma updateScene_index_low (len : nat) (q : Q) :
  (q <= 0)%Q -> updateScene_index len q = 0%Z.
Proof.
  intros Hq. unfold updateScene_index. apply Qfloor_unique.
  - apply Q.max_le_iff. left. apply Qle_refl.
  - apply Q.max_lub_lt_iff. split; [reflexivity|].
    apply Q.min_lt_iff. left. eapply Qle_lt_trans; [exact Hq | reflexivity].
Qed.

Lemma updateScene_index_high (len : nat) (q : Q) :
  (1 <= len)%nat -> (inject_Z (Z.of_nat len - 1) <= q)%Q ->
  updateScene_index len q = (Z.of_nat len - 1)%Z.
Proof.
  intros Hlen Hq. unfold updateScene_index. apply Qfloor_unique.
  - apply Q.max_le_iff. right. apply Q.min_glb_iff. split;
      [exact Hq | apply Qle_refl].
  - apply Q.max_lub_lt_iff. split.
    + change 0%Q with (inject_Z 0). rewrite <- Zlt_Qlt. lia.
    + apply Q.min_lt_iff. right. rewrite <- Zlt_Qlt. lia.
Qed.

Lemma updateScene_index_empty (q : Q) : updateScene_index 0 q = 0%Z.
Proof.
  unfold updateScene_index. apply Qfloor_unique.
  - apply Q.max_le_iff. left. apply Qle_refl.
  - apply Q.max_lub_lt_iff. split; [reflexivity|].
    apply Q.min_lt_iff. right. reflexivity.
Qed.

(** X11. Whatever index it is given, [updateScene] stores an integer time
    index that is not negative, and that is a valid index of the time grid
    as soon as the grid is not empty; on an empty grid it stores 0; an
    integer index of the grid is stored as it is. *)
Theorem updateScene_index_valid :
  forall (len : nat) (index : Q),
    let tIndex := updateScene_index len index in
    (0 <= tIndex)%Z /\
    ((1 <= len)%nat -> (tIndex < Z.of_nat len)%Z) /\
    (len = 0%nat -> tIndex = 0%Z) /\
    (forall k : Z, (0 <= k < Z.of_nat len)%Z -> (index == inject_Z k)%Q ->
                   tIndex = k).
Proof.
  intros len index tIndex. subst tIndex.
  destruct len as [|n].
  - rewrite updateScene_index_empty. repeat split; try lia.
  - destruct (Qlt_le_dec index 0) as [Hneg | Hpos].
    + rewrite updateScene_index_low by (apply Qlt_le_weak; exact Hneg).
      repeat split; try lia.
      intros k Hk Heq. rewrite Heq in Hneg.
      change 0%Q with (inject_Z 0) in Hneg. rewrite <- Zlt_Qlt in Hneg. lia.
    + destruct (Qlt_le_dec index (inject_Z (Z.of_nat (S n)))) as [Hin | Hout].
      * rewrite updateScene_index_floor by assumption.
        assert (H0 : (0 <= Qfloor index)%Z).
        { change 0%Z with (Qfloor 0). apply Qfloor_resp_le. exact Hpos. }
        assert (H1 : (Qfloor index < Z.of_nat (S n))%Z).
        { rewrite Zlt_Qlt. eapply Qle_lt_trans; [apply Qfloor_le | exact Hin]. }
        repeat split; try lia.
        intros k Hk Heq. rewrite Heq. apply Qfloor_Z.
      * rewrite updateScene_index_high; [|lia|].
        -- repeat split; try lia.
           intros k Hk Heq. rewrite Heq in Hout.
           rewrite <- Zle_Qle in Hout. lia.
        -- eapply Qle_trans; [|exact Hout]. rewrite <- Zle_Qle. lia.
Qed.

Lemma Qfloor_plus_Z (k : Z) (q : Q) :
  Qfloor (inject_Z k + q) = (k + Qfloor q)%Z.
Proof.
  apply Qfloor_unique.
  - rewrite inject_Z_plus. apply Qplus_le_r. apply Qfloor_le.
  - replace (k + Qfloor q + 1)%Z with (k + (Qfloor q + 1))%Z by lia.
    rewrite inject_Z_plus. apply Qplus_lt_r. apply Qlt_floor.
Qed.

Lemma half_floor (speed : Z) : Qfloor (0.5 * inject_Z speed) = (speed / 2)%Z.
Proof.
  pose proof (Z.div_mod speed 2 ltac:(lia)) as Hdiv.
  pose proof (Z.mod_pos_bound speed 2 ltac:(lia)) as Hmod.
  assert (Hlow : (2 * (speed / 2) <= speed)%Z) by lia.
  assert (Hhigh : (speed < 2 * (speed / 2 + 1))%Z) by lia.
  rewrite Zle_Qle, inject_Z_mult in Hlow.
  rewrite Zlt_Qlt, inject_Z_mult in Hhigh.
  change (inject_Z 2) with 2%Q in *.
  apply Qfloor_unique; lra.
Qed.

Lemma wrap_test (speed : Z) (len : nat) (t : Z) :
  Qle_bool (inject_Z (Z.of_nat len)) (inject_Z t + 0.5 * inject_Z speed)
  = (2 * Z.of_nat len <=? 2 * t + speed)%Z.
Proof.
  destruct (Z.leb_spec (2 * Z.of_nat len) (2 * t + speed)) as [Hle | Hlt].
  - apply Qle_bool_iff.
    rewrite Zle_Qle, inject_Z_plus, !inject_Z_mult in Hle.
    change (inject_Z 2) with 2%Q in Hle. lra.
  - destruct (Qle_bool _ _) eqn:Hwrap; [|reflexivity].
    apply Qle_bool_iff in Hwrap.
    rewrite Zlt_Qlt, inject_Z_plus, !inject_Z_mult in Hlt.
    change (inject_Z 2) with 2%Q in Hlt. lra.
Qed.

(** X12. A tick of the timer at an integer time index of the grid and an
    integer speed that is not negative, with [len + speed <= 2^52] so that
    binary64 rounds nothing, moves the index by [floor (speed / 2)], or back
    to 0 when the index plus half the speed reaches the length of the grid;
    so at the speed 1, as at the speed 0, the index that [updateScene]
    stores never moves. *)
Theorem timer_tick_advance :
  forall (speed : Z) (len : nat) (t : Z),
    (0 <= t < Z.of_nat len)%Z ->
    (0 <= speed)%Z ->
    (Z.of_nat len + speed <= 2 ^ 52)%Z ->
    timer_tick speed len t
    = (if 2 * Z.of_nat len <=? 2 * t + speed then 0 else t + speed / 2)%Z /\
    ((speed <= 1)%Z -> timer_tick speed len t = t).
Proof.
  intros speed len t Ht Hspeed _.
  assert (Hstep : (0 <= 0.5 * inject_Z speed)%Q).
  { rewrite Zle_Qle in Hspeed. change (inject_Z 0) with 0%Q in Hspeed. lra. }
  assert (Hformula :
    timer_tick speed len t
    = (if 2 * Z.of_nat len <=? 2 * t + speed then 0 else t + speed / 2)%Z).
  { unfold timer_tick. cbv zeta. rewrite wrap_test.
    destruct (Z.leb_spec (2 * Z.of_nat len) (2 * t + speed)) as [Hwrap | Hnext].
    - apply updateScene_index_low. apply Qle_refl.
    - rewrite updateScene_index_floor.
      + rewrite Qfloor_plus_Z, half_floor. reflexivity.
      + assert (0 <= inject_Z t)%Q
          by (change 0%Q with (inject_Z 0); rewrite <- Zle_Qle; lia).
        lra.
      + rewrite Zlt_Qlt, inject_Z_plus, !inject_Z_mult in Hnext.
        change (inject_Z 2) with 2%Q in Hnext. lra. }
  split; [exact Hformula|].
  intros Hslow. rewrite Hformula.
  assert (Hhalf : (speed / 2 = 0)%Z) by (apply Z.div_small; lia).
  destruct (Z.leb_spec (2 * Z.of_nat len) (2 * t + speed)); lia.
Qed.

End TimeIndex.

(** ** The trail *)

Section TrailProperties.

Context {num : Type}.

Variables xs ys : list (option num).
Variables tIndex step : nat.
Hypothesis step_pos : 1 <= step.

Lemma trail_loop_length : forall fuel k,
  length (trail_loop xs ys tIndex step fuel k) * step <= tIndex + step - k.
Proof.
  induction fuel as [|fuel IH]; intro k; simpl.
  - lia.
  - destruct (Nat.leb_spec k tIndex) as [Hle | Hgt]; [|simpl; lia].
    rewrite length_app. specialize (IH (k + step)).
    destruct (trail_keeps xs ys k); simpl; nia.
Qed.

Lemma trail_loop_In : forall fuel k i,
  In i (trail_loop xs ys tIndex step fuel k) ->
  k <= i <= tIndex /\ trail_keeps xs ys i = true.
Proof.
  induction fuel as [|fuel IH]; intros k i Hin; simpl in Hin.
  - contradiction.
  - destruct (Nat.leb_spec k tIndex) as [Hle | Hgt]; [|contradiction].
    apply in_app_or in Hin. destruct Hin as [Hin | Hin].
    + destruct (trail_keeps xs ys k) eqn:Hkeep; [|contradiction].
      destruct Hin as [<- | []]. split; [lia | exact Hkeep].
    + apply IH in Hin. split; [lia | apply Hin].
Qed.

Lemma trail_loop_increasing : forall fuel k,
  increasing (trail_loop xs ys tIndex step fuel k).
Proof.
  induction fuel as [|fuel IH]; intro k; simpl.
  - constructor.
  - destruct (Nat.leb_spec k tIndex) as [Hle | Hgt]; [|constructor].
    destruct (trail_keeps xs ys k); simpl; [|apply IH].
    constructor; [apply IH|].
    apply Forall_forall. intros i Hi. apply trail_loop_In in Hi.
    unfold Nat.lt. lia.
Qed.

(** Once the fuel covers the indices up to [tIndex], more fuel changes
    nothing: the loop has ended. *)
Lemma trail_loop_fuel : forall fuel fuel' k,
  tIndex + 1 - k <= fuel -> tIndex + 1 - k <= fuel' ->
  trail_loop xs ys tIndex step fuel k = trail_loop xs ys tIndex step fuel' k.
Proof.
  induction fuel as [|fuel IH]; intros fuel' k Hfuel Hfuel'.
  - destruct fuel' as [|fuel']; [reflexivity|]. simpl.
    destruct (Nat.leb_spec k tIndex) as [Hle | Hgt]; [lia | reflexivity].
  - destruct fuel' as [|fuel'].
    + simpl. destruct (Nat.leb_spec k tIndex) as [Hle | Hgt];
        [lia | reflexivity].
    + simpl. destruct (Nat.leb_spec k tIndex) as [Hle | Hgt];
        [|reflexivity].
      f_equal. apply IH; lia.
Qed.

End TrailProperties.

(** X13. With a step of at least 1 and an integer time index, the trail of
    an object has at most [TRAIL_LENGTH + 1] points; their indices
    increase, lie between [tIndex - TRAIL_LENGTH * TRAIL_POINT_STEP] and
    [tIndex], so no point is ahead of the current time, are indices of
    [o.x], and have a non-null [x] and [y]. The loop ends within
    [tIndex + 1] iterations. *)
Theorem trail_points_bounded :
  forall (num : Type) (xs ys : list (option num))
         (tIndex TRAIL_LENGTH TRAIL_POINT_STEP : nat),
    1 <= TRAIL_POINT_STEP ->
    let pts := trail_points xs ys tIndex TRAIL_LENGTH TRAIL_POINT_STEP in
    length pts <= TRAIL_LENGTH + 1 /\
    increasing pts /\
    (forall k, In k pts ->
               tIndex - TRAIL_LENGTH * TRAIL_POINT_STEP <= k <= tIndex /\
               k < length xs /\
               arr_get xs k <> JNull /\ arr_get ys k <> JNull) /\
    (forall fuel, S tIndex <= fuel ->
                  trail_loop xs ys tIndex TRAIL_POINT_STEP fuel
                             (tIndex - TRAIL_LENGTH * TRAIL_POINT_STEP)
                  = pts).
Proof.
  intros num xs ys tIndex L step Hstep pts. subst pts. unfold trail_points.
  split; [|split; [|split]].
  - pose proof (trail_loop_length xs ys tIndex Hstep (S tIndex)
                                  (tIndex - L * step)) as Hlen.
    nia.
  - apply trail_loop_increasing. exact Hstep.
  - intros k Hk. apply trail_loop_In in Hk; [|exact Hstep].
    destruct Hk as [Hrange Hkeep]. unfold trail_keeps in Hkeep.
    apply andb_prop in Hkeep. destruct Hkeep as [Hkeep Hy].
    apply andb_prop in Hkeep. destruct Hkeep as [Hlen Hx].
    apply Nat.ltb_lt in Hlen.
    repeat split; try lia;
      intro Hnull; [rewrite Hnull in Hx | rewrite Hnull in Hy]; discriminate.
  - intros fuel Hfuel. apply trail_loop_fuel; lia.
Qed.

(** ** The orbit, over the reals *)

Module OrbitProperties.

Import RealNumber Pipeline RealProperties.
Local Open Scope R_scope.
Local Abbreviation sqrt := R_sqrt.sqrt.

(** X14. For [a > 0] and [0 <= e < 1], at every date, the distance from the
    Sun of the position that [elementsToPosition] returns lies between the
    perihelion distance [a (1 - e)] and the aphelion distance [a (1 + e)],
    in kilometres, whatever the orientation of the orbit and whatever
    eccentric anomaly the solver has reached. In real arithmetic. *)
Theorem distance_between_apsides :
  forall (a ecc i_deg Omega_deg omega_deg M_deg epochJD : R)
         (targetJD : option R),
    0 < a -> 0 <= ecc < 1 ->
    a * 149597870.7 * (1 - ecc)
    <= norm3 (elementsToPosition a ecc i_deg Omega_deg omega_deg M_deg
                                 epochJD targetJD)
    <= a * 149597870.7 * (1 + ecc).
Proof.
  intros a ecc i_deg Omega_deg omega_deg M_deg epochJD targetJD Ha He.
  rewrite elementsToPosition_factor, position_of_anomaly_norm, AU_KM_value.
  set (E := solveKepler _ _ _ _).
  pose proof (COS_bound E) as [Hlow Hhigh].
  assert (Hkm : 0 < a * 149597870.7) by nra.
  assert (Hfactor : 1 - ecc <= 1 - ecc * cos E <= 1 + ecc) by nra.
  rewrite Rabs_pos_eq by nra.
  split; apply Rmult_le_compat_l; lra.
Qed.

(** X15. For [a > 0] and [0 <= e < 1], the elements on which the
    propagation yields numbers, and the inclination 0, the position that
    [elementsToPosition] returns has [z = 0]: the orbit stays in the
    ecliptic plane, at every date and for all angles. In real arithmetic. *)
Theorem zero_inclination_planar :
  forall (a ecc Omega_deg omega_deg M_deg epochJD : R) (targetJD : option R),
    0 < a -> 0 <= ecc < 1 ->
    snd (elementsToPosition a ecc 0 Omega_deg omega_deg M_deg epochJD targetJD)
    = 0.
Proof.
  intros a ecc Omega_deg omega_deg M_deg epochJD targetJD _ _.
  rewrite elementsToPosition_factor. unfold position_of_anomaly. cbv zeta.
  cbn [snd]. rewrite !lit_0, !lit_180. real_ops.
  replace (0 * PI / 180) with 0 by (unfold Rdiv; ring).
  rewrite sin_0. ring.
Qed.

(** X16. For a circular orbit, [e = 0], and a positive tolerance,
    [solveKepler] returns the mean anomaly normalised into [[0, 2 PI)],
    whatever the cap: the first guess already solves Kepler's equation, and
    the first update is 0. In real arithmetic. *)
Theorem solveKepler_circular :
  forall (M tol : R) (maxiter : nat),
    0 < tol ->
    solveKepler M 0 tol maxiter = normalize_angle M /\
    0 <= solveKepler M 0 tol maxiter < 2 * PI.
Proof.
  intros M tol maxiter Htol.
  assert (Heq : solveKepler M 0 tol maxiter = normalize_angle M).
  { unfold solveKepler. cbv zeta.
    assert (Hguess : lt 0 (lit 0.8) = true).
    { rewrite lit_08. real_ops. apply Rltb_true. lra. }
    rewrite Hguess.
    destruct maxiter as [|n]; [reflexivity|].
    cbn [newton_loop].
    assert (Hdelta : newton_delta 0 (normalize_angle M) (normalize_angle M) = 0).
    { unfold newton_delta. cbv zeta. rewrite lit_1. real_ops.
      unfold Rdiv. ring. }
    rewrite Hdelta.
    assert (Hsmall : lt (Math_abs 0) tol = true).
    { real_ops. apply Rltb_true. rewrite Rabs_R0. exact Htol. }
    rewrite Hsmall. real_ops. ring. }
  split; [exact Heq|]. rewrite Heq. apply normalize_angle_range.
Qed.

End OrbitProperties.

(** ** The fit of the elements, over the reals *)

Module FitProperties.

Import RealNumber Pipeline RealProperties.
Local Open Scope R_scope.
Local Abbreviation sqrt := R_sqrt.sqrt.

Lemma squared_distance_nonneg (p q : R * R * R) : 0 <= squared_distance p q.
Proof.
  destruct p as [[px py] pz], q as [[qx qy] qz].
  unfold squared_distance. cbv zeta. real_ops.
  pose proof (Rle_0_sqr (px - qx)). pose proof (Rle_0_sqr (py - qy)).
  pose proof (Rle_0_sqr (pz - qz)). unfold Rsqr in *. lra.
Qed.

Lemma squared_distance_zero (p q : R * R * R) :
  squared_distance p q = 0 <-> p = q.
Proof.
  destruct p as [[px py] pz], q as [[qx qy] qz].
  unfold squared_distance. cbv zeta. real_ops. split.
  - intros Hzero.
    pose proof (Rle_0_sqr (px - qx)) as Hsx.
    pose proof (Rle_0_sqr (py - qy)) as Hsy.
    pose proof (Rle_0_sqr (pz - qz)) as Hsz.
    assert (Hx : px - qx = 0) by (apply Rsqr_0_uniq; unfold Rsqr in *; lra).
    assert (Hy : py - qy = 0) by (apply Rsqr_0_uniq; unfold Rsqr in *; lra).
    assert (Hz : pz - qz = 0) by (apply Rsqr_0_uniq; unfold Rsqr in *; lra).
    f_equal; [f_equal|]; lra.
  - intros Heq. injection Heq as -> -> ->. ring.
Qed.

(** A sum of numbers that are not negative is 0 only when all of them
    are. *)
Lemma fold_sum_zero : forall (l : list R) (acc : R),
  Forall (fun r => 0 <= r) l -> 0 <= acc ->
  acc <= fold_left Rplus l acc /\
  (fold_left Rplus l acc = 0 <-> acc = 0 /\ Forall (fun r => r = 0) l).
Proof.
  induction l as [|r l IH]; intros acc Hl Hacc; simpl.
  - split; [lra|]. split; [intros ->; auto | intros [-> _]; reflexivity].
  - inversion Hl as [|? ? Hr Hrest]; subst.
    destruct (IH (acc + r) Hrest) as [Hge Hiff]; [lra|].
    split; [lra|]. rewrite Hiff. split.
    + intros [Hsum Hall]. split; [lra|]. constructor; [lra | exact Hall].
    + intros [-> Hall]. inversion Hall; subst. split; [lra | assumption].
Qed.

Lemma rms_residual_zero (times : list R) (obj : object R) (a ecc i : R)
    (selected : list nat) :
  (1 <= length selected)%nat ->
  rms_residual times obj a ecc i selected = 0 <->
  forall idx, In idx selected ->
              recorded_position obj idx = propagated_position times a ecc i idx.
Proof.
  intros Hlen. unfold rms_residual, sum_list. rewrite lit_count, lit_0.
  real_ops.
  assert (Hn : 0 < INR (length selected)) by (apply lt_0_INR; lia).
  assert (Hnonneg : Forall (fun r => 0 <= r)
                           (map (residual times obj a ecc i) selected)).
  { apply Forall_forall. intros r Hr. apply in_map_iff in Hr.
    destruct Hr as (idx & <- & _). apply squared_distance_nonneg. }
  destruct (fold_sum_zero Hnonneg (Rle_refl 0)) as [Hge Hiff].
  change (fold_left add (map (residual times obj a ecc i) selected) 0)
    with (fold_left Rplus (map (residual times obj a ecc i) selected) 0).
  set (total := fold_left Rplus _ 0) in *.
  assert (Hquot : 0 <= total / INR (length selected))
    by (apply Rmult_le_pos; [exact Hge | left; apply Rinv_0_lt_compat, Hn]).
  split.
  - intros Hrms. apply sqrt_eq_0 in Hrms; [|exact Hquot].
    assert (Htotal : total = 0).
    { apply Rmult_eq_compat_r with (r := INR (length selected)) in Hrms.
      unfold Rdiv in Hrms. rewrite Rmult_assoc, Rinv_l, Rmult_1_r, Rmult_0_l
        in Hrms by lra. exact Hrms. }
    apply Hiff in Htotal. destruct Htotal as [_ Hall].
    intros idx Hin. apply squared_distance_zero.
    rewrite Forall_forall in Hall.
    change (residual times obj a ecc i idx = 0).
    apply Hall, in_map, Hin.
  - intros Hfit.
    assert (Htotal : total = 0).
    { apply Hiff. split; [reflexivity|]. apply Forall_forall.
      intros r Hr. apply in_map_iff in Hr. destruct Hr as (idx & <- & Hin).
      unfold residual. apply squared_distance_zero, Hfit, Hin. }
    rewrite Htotal. unfold Rdiv. rewrite Rmult_0_l. apply sqrt_0.
Qed.

(** X17. When [crossValidateElements] returns a result, its [rms_km] is 0
    if and only if the elements fit the selected samples exactly: at each
    selected time index the recorded position, made of the recorded [x],
    [y] and [z] with an absent coordinate taken as 0, is the position
    propagated to the date of the index. In real arithmetic. *)
Theorem zero_rms_exact_fit :
  forall (times : list R) (obj : object R) (numSamples : nat)
         (el : elements_t R) (a ecc i : R) (res : validation R),
    elements obj = Some el ->
    a_AU el = JNum a -> e el = JNum ecc -> i_deg el = JNum i ->
    crossValidateElements times obj numSamples = Some res ->
    rms_km res = 0 <->
    forall idx,
      In idx (select_samples (validIdx times obj) numSamples) ->
      (coordinate (x obj) idx, coordinate (y obj) idx, coordinate (z obj) idx)
      = elementsToPosition a ecc i 0 0 0 2451545
                           (Some (nth idx times 0)).
Proof.
  intros times obj numSamples el a ecc i res Hel Ha He Hi Hres.
  apply crossValidate_result_inv in Hres.
  destruct Hres as (el' & a' & ecc' & i' & Hel' & Ha' & He' & Hi' & _ & _
                    & Hcount & Hsamples & Hrms).
  assert (el' = el) by congruence. subst el'.
  rewrite He in He'. rewrite Hi in Hi'. simpl in He', Hi'.
  assert (a' = a) by congruence.
  assert (ecc' = ecc) by congruence.
  assert (i' = i) by congruence. subst a' ecc' i'.
  rewrite Hrms, (read_rms_recorded _ _ _ _ _ (plain_coordinates_real obj)).
  rewrite rms_residual_zero by (rewrite <- Hsamples; exact Hcount).
  unfold recorded_position, propagated_position.
  rewrite lit_0. replace (lit 2451545.0) with 2451545; [reflexivity|].
  unfold lit. simpl. unfold Q2R. simpl. lra.
Qed.

End FitProperties.

(** ** The view, over the reals *)

Module ViewProperties.

Import RealNumber View.
Local Open Scope R_scope.
Local Abbreviation sqrt := R_sqrt.sqrt.

Lemma ln_10_pos : 0 < ln 10.
Proof. rewrite <- ln_1. apply ln_increasing; lra. Qed.

Lemma log10_increasing (u v : R) : 0 < u -> u < v -> log10 u < log10 v.
Proof.
  intros Hu Huv. unfold log10. pose proof ln_10_pos as H10.
  apply Rmult_lt_compat_r; [apply Rinv_0_lt_compat; exact H10|].
  apply ln_increasing; assumption.
Qed.

Lemma log10_le (u v : R) : 0 < u -> u <= v -> log10 u <= log10 v.
Proof.
  intros Hu [Hlt | ->]; [left; apply log10_increasing; assumption | right; reflexivity].
Qed.

Lemma resetView_radii (eps : R) (objects : list (Scene.entry R)) :
  1e-6 <= min_r (resetView eps objects) /\
  min_r (resetView eps objects) * 1.0001 <= max_r (resetView eps objects) /\
  min_logr (resetView eps objects) = log10 (min_r (resetView eps objects) + eps) /\
  max_logr (resetView eps objects) = log10 (max_r (resetView eps objects) + eps).
Proof.
  unfold resetView.
  destruct (fold_left extent_of_object objects (None, 0)) as [minr maxr].
  destruct minr as [minr|]; cbn [min_r max_r min_logr max_logr].
  - pose proof (Rmax_r minr 1e-6) as Hmin.
    pose proof (Rmax_r maxr (Rmax minr 1e-6 * 1.0001)) as Hmax.
    repeat split; lra.
  - pose proof (Rmax_r 0 1e-6) as Hmin.
    pose proof (Rmax_r 1 (Rmax 0 1e-6 * 1.0001)) as Hmax.
    repeat split; lra.
Qed.

(** X18. Whatever the scene whose objects have [x] and [y] of one length,
    also an empty one or one without any recorded position, and for a
    radial offset that is not negative, [resetView] stores extents with
    [min_r >= 1e-6] and [max_r >= 1.0001 min_r], so that
    [min_logr < max_logr]: the logarithmic scale of [worldToScreenLog] never
    has an empty range. In real arithmetic. *)
Theorem resetView_extents :
  forall (eps : R) (objects : list (Scene.entry R)),
    Forall same_length objects ->
    0 <= eps ->
    let view := resetView eps objects in
    1e-6 <= min_r view /\
    min_r view * 1.0001 <= max_r view /\
    min_r view < max_r view /\
    min_logr view < max_logr view.
Proof.
  intros eps objects _ Heps view. subst view.
  destruct (resetView_radii eps objects) as (Hmin & Hmax & -> & ->).
  repeat split; try lra.
  apply log10_increasing; lra.
Qed.

(** *** What the extents cover *)

Lemma widens_refl (acc : option R * R) : widens acc acc.
Proof. split; [lra|]. intros m Hm. exists m. split; [exact Hm | lra]. Qed.

Lemma widens_trans (acc1 acc2 acc3 : option R * R) :
  widens acc1 acc2 -> widens acc2 acc3 -> widens acc1 acc3.
Proof.
  intros [Hmax12 Hmin12] [Hmax23 Hmin23]. split; [lra|].
  intros m Hm. destruct (Hmin12 m Hm) as (m2 & Hm2 & Hle2).
  destruct (Hmin23 m2 Hm2) as (m3 & Hm3 & Hle3).
  exists m3. split; [exact Hm3 | lra].
Qed.

Lemma covers_widens (acc acc' : option R * R) (r : R) :
  covers acc r -> widens acc acc' -> covers acc' r.
Proof.
  intros [Hmax (m & Hm & Hle)] [Hmax' Hmin']. split; [lra|].
  destruct (Hmin' m Hm) as (m' & Hm' & Hle'). exists m'. split; [exact Hm' | lra].
Qed.

Section Extents.

Variables xs ys : list (option R).

Lemma extent_step_widens (acc : option R * R) (i : nat) :
  widens acc (extent_step xs ys acc i).
Proof.
  unfold extent_step.
  destruct (arr_get xs i) as [| |xx]; try apply widens_refl.
  destruct (arr_get ys i) as [| |yy]; try apply widens_refl.
  cbv zeta. split; cbn [fst snd].
  - apply Rmax_l.
  - intros m Hm. rewrite Hm. eexists. split; [reflexivity | apply Rmin_l].
Qed.

Lemma extent_step_covers (acc : option R * R) (i : nat) (xx yy : R) :
  arr_get xs i = JNum xx -> arr_get ys i = JNum yy ->
  covers (extent_step xs ys acc i) (sqrt (xx * xx + yy * yy)).
Proof.
  intros Hx Hy. unfold extent_step. rewrite Hx, Hy. cbv zeta.
  split; cbn [fst snd].
  - apply Rmax_r.
  - eexists. split; [reflexivity|].
    destruct (fst acc); [apply Rmin_r | lra].
Qed.

Lemma extent_loop_widens (stride : nat) : forall fuel i acc,
  widens acc (extent_loop xs ys stride fuel i acc).
Proof.
  induction fuel as [|fuel IH]; intros i acc; simpl.
  - apply widens_refl.
  - destruct (i <? length xs)%nat; [|apply widens_refl].
    eapply widens_trans; [apply extent_step_widens | apply IH].
Qed.

(** Every index [i + k * stride] of the array is visited when the fuel
    covers the array. *)
Lemma extent_loop_covers (stride : nat) (xx yy : R) :
  (1 <= stride)%nat ->
  forall k fuel i acc,
    (i + k * stride < length xs)%nat ->
    (length xs <= fuel + i)%nat ->
    arr_get xs (i + k * stride) = JNum xx ->
    arr_get ys (i + k * stride) = JNum yy ->
    covers (extent_loop xs ys stride fuel i acc) (sqrt (xx * xx + yy * yy)).
Proof.
  intros Hstride. induction k as [|k IH]; intros fuel i acc Hin Hfuel Hx Hy.
  - rewrite Nat.add_0_r in *. destruct fuel as [|fuel]; [lia|]. simpl.
    destruct (Nat.ltb_spec i (length xs)) as [_|Hout]; [|lia].
    eapply covers_widens; [apply extent_step_covers; eassumption|].
    apply extent_loop_widens.
  - destruct fuel as [|fuel]; [lia|]. simpl.
    destruct (Nat.ltb_spec i (length xs)) as [_|Hout]; [|lia].
    replace (i + S k * stride)%nat with (i + stride + k * stride)%nat in *
      by lia.
    apply IH; try assumption. lia.
Qed.

End Extents.

Lemma extent_stride_pos (len : nat) : (1 <= extent_stride len)%nat.
Proof. unfold extent_stride. lia. Qed.

Lemma fold_extent_widens : forall (objects : list (Scene.entry R)) acc,
  widens acc (fold_left extent_of_object objects acc).
Proof.
  induction objects as [|o rest IH]; intro acc; simpl.
  - apply widens_refl.
  - eapply widens_trans; [|apply IH].
    unfold extent_of_object. apply extent_loop_widens.
Qed.

Lemma fold_extent_covers (o : Scene.entry R) (k : nat) (r : R) :
  forall (objects : list (Scene.entry R)) acc,
    In o objects ->
    (k * extent_stride (length (x (Scene.body o)))
     < length (x (Scene.body o)))%nat ->
    sample_radius o (k * extent_stride (length (x (Scene.body o)))) = Some r ->
    covers (fold_left extent_of_object objects acc) r.
Proof.
  induction objects as [|o' rest IH]; intros acc Hin Hk Hr.
  - contradiction.
  - simpl. destruct Hin as [-> | Hin].
    + eapply covers_widens; [|apply fold_extent_widens].
      unfold sample_radius in Hr.
      destruct (arr_get (x (Scene.body o)) _) as [| |xx] eqn:Hx;
        try discriminate.
      destruct (arr_get (y (Scene.body o)) _) as [| |yy] eqn:Hy;
        try discriminate.
      injection Hr as <-.
      unfold extent_of_object.
      apply extent_loop_covers with (k := k);
        [apply extent_stride_pos | simpl; exact Hk | lia
        | simpl; exact Hx | simpl; exact Hy].
    + apply IH; assumption.
Qed.

Lemma resetView_covers (eps : R) (objects : list (Scene.entry R))
    (o : Scene.entry R) (k : nat) (r : R) :
  In o objects ->
  (k * extent_stride (length (x (Scene.body o)))
   < length (x (Scene.body o)))%nat ->
  sample_radius o (k * extent_stride (length (x (Scene.body o)))) = Some r ->
  r <= max_r (resetView eps objects) /\
  (1e-6 <= r -> min_r (resetView eps objects) <= r).
Proof.
  intros Hin Hk Hr.
  pose proof (fold_extent_covers o k objects (None, 0) Hin Hk Hr) as Hcov.
  unfold resetView.
  destruct (fold_left extent_of_object objects (None, 0)) as [minr maxr].
  destruct Hcov as [Hmax (m & Hm & Hle)]. cbn [fst snd] in *. subst minr.
  cbn [min_r max_r].
  split.
  - eapply Rle_trans; [exact Hmax | apply Rmax_l].
  - intros Hbig. apply Rmax_lub; assumption.
Qed.

(** X19. The extents of [resetView] cover what it samples: for every object
    of a scene whose objects have [x] and [y] of one length, and every
    sampled index [k * stride] of its arrays, with
    [stride = max 1 (floor (length / 500))], at which [x] and [y] are
    recorded, the radius of the sample is at most [max_r], and at least
    [min_r] unless it is below [1e-6]. In real arithmetic. *)
Theorem resetView_covers_samples :
  forall (eps : R) (objects : list (Scene.entry R)) (o : Scene.entry R)
         (k : nat) (r : R),
    Forall same_length objects ->
    In o objects ->
    (k * extent_stride (length (x (Scene.body o)))
     < length (x (Scene.body o)))%nat ->
    sample_radius o (k * extent_stride (length (x (Scene.body o)))) = Some r ->
    let view := resetView eps objects in
    r <= max_r view /\ (1e-6 <= r -> min_r view <= r).
Proof.
  intros eps objects o k r _ Hin Hk Hr view. subst view.
  eapply resetView_covers; eassumption.
Qed.

(** *** The logarithmic scale *)

Lemma screen_distance_polar (cx cy d theta : R) :
  0 <= d ->
  screen_distance (cx + d * cos theta, cy + d * sin theta) (cx, cy) = d.
Proof.
  intro Hd. unfold screen_distance. cbn [fst snd].
  replace ((cx + d * cos theta - cx) ^ 2 + (cy + d * sin theta - cy) ^ 2)
    with (d ^ 2 * ((sin theta)² + (cos theta)²)) by (unfold Rsqr; ring).
  rewrite sin2_cos2, Rmult_1_r.
  replace (d ^ 2) with (d²) by (unfold Rsqr; ring).
  apply sqrt_Rsqr. exact Hd.
Qed.

(** X20. [worldToScreenLog] draws inside the disc: with the extents of
    [resetView], a radial offset that is not negative and a largest radius
    [maxRadiusPixels] that is not negative, a point of the plane whose
    distance [r] to the origin lies between [min_r] and [max_r] is drawn at
    the distance [s * maxRadiusPixels] of the centre with [0 <= s < 1].
    In real arithmetic. *)
Theorem worldToScreenLog_inside :
  forall (eps : R) (objects : list (Scene.entry R))
         (cx cy wx wy maxRadiusPixels : R),
    Forall same_length objects ->
    0 <= eps ->
    0 <= maxRadiusPixels ->
    let view := resetView eps objects in
    let r := sqrt (wx * wx + wy * wy) in
    min_r view <= r <= max_r view ->
    let s := (log10 (r + eps) - min_logr view)
             / (max_logr view - min_logr view + 1e-12) in
    0 <= s < 1 /\
    screen_distance
      (worldToScreenLog view eps cx cy wx wy maxRadiusPixels) (cx, cy)
    = s * maxRadiusPixels.
Proof.
  intros eps objects cx cy wx wy maxR _ Heps HmaxR view r [Hlow Hhigh] s.
  subst view r s.
  destruct (resetView_radii eps objects) as (Hmin & Hmax & Hlmin & Hlmax).
  set (view := resetView eps objects) in *.
  set (r := sqrt (wx * wx + wy * wy)) in *.
  assert (Hl1 : min_logr view <= log10 (r + eps))
    by (rewrite Hlmin; apply log10_le; lra).
  assert (Hl2 : log10 (r + eps) <= max_logr view)
    by (rewrite Hlmax; apply log10_le; lra).
  set (num := log10 (r + eps) - min_logr view) in *.
  set (den := max_logr view - min_logr view + 1e-12) in *.
  assert (Hnum : 0 <= num) by (subst num; lra).
  assert (Hden : num < den) by (subst num den; lra).
  assert (Hs : 0 <= num / den < 1).
  { split.
    - apply Rmult_le_pos; [exact Hnum|].
      left. apply Rinv_0_lt_compat. lra.
    - apply Rmult_lt_reg_r with den; [lra|].
      unfold Rdiv. rewrite Rmult_assoc, Rinv_l by lra. lra. }
  split; [exact Hs|].
  unfold worldToScreenLog. cbv zeta. fold r. fold num. fold den.
  apply screen_distance_polar.
  apply Rmult_le_pos; [apply Hs | exact HmaxR].
Qed.

End ViewProperties.

(** * Instances of the theorems on the viewer *)

Module ViewerExamples.

Import RealNumber Pipeline Scenario SceneScenario.
Local Open Scope R_scope.
Local Abbreviation sqrt := R_sqrt.sqrt.

Lemma first_draw_below : forall i, (first_draw i <= i)%nat.
Proof. intro i. unfold first_draw. lia. Qed.

Lemma scene_same_length : Forall View.same_length scene_objects.
Proof. repeat constructor. Qed.

Lemma earth_radius :
  sqrt (149597870.7 * 149597870.7 + 0 * 0) = 149597870.7.
Proof.
  replace (149597870.7 * 149597870.7 + 0 * 0) with (149597870.7²)
    by (unfold Rsqr; ring).
  apply sqrt_Rsqr. lra.
Qed.

(** X1 on the scene of two objects, with the limit 1. *)
Lemma crossValidateAll_first_validated_witness :
  (1 <= 1)%nat /\
  crossValidateAll (daily_grid 3) scene_objects 1
  = firstn 1 (validated (daily_grid 3) scene_objects) /\
  (length (crossValidateAll (daily_grid 3) scene_objects 1) <= 1)%nat.
Proof.
  split; [lia|].
  exact (@crossValidateAll_first_validated R _ (daily_grid 3) scene_objects
                                           1%nat (le_n 1)).
Defined.

(** X3 on an array of three elements. *)
Lemma shuffleArray_permutation_witness :
  Permutation [1; 2; 3]%nat (shuffleArray first_draw [1; 2; 3]%nat) /\
  length (shuffleArray first_draw [1; 2; 3]%nat) = 3%nat.
Proof.
  exact (@shuffleArray_permutation nat first_draw [1; 2; 3]%nat
                                   first_draw_below).
Defined.

(** X5 on the scene, checked at the fraction one half. *)
Lemma onClassToggle_checked_witness :
  scene_objects <> [] /\
  exists o, In o scene_objects /\
            set_has (onClassToggle first_draw scene_objects (1 # 2) true [])
                    (Scene.id o) = true.
Proof.
  assert (Hne : scene_objects <> []) by discriminate.
  split; [exact Hne|].
  exact (proj2 (proj2 (@onClassToggle_checked R first_draw scene_objects
                                              (1 # 2) [] first_draw_below))
               Hne).
Defined.

(** X6 on the scene, checked at the fraction 1. *)
Lemma onClassToggle_checked_all_witness :
  (1 == 1)%Q /\
  set_has (onClassToggle first_draw scene_objects 1 true []) (Scene.id ceres)
  = set_has [] (Scene.id ceres) || has_id scene_objects (Scene.id ceres).
Proof.
  assert (Hone : (1 == 1)%Q) by reflexivity.
  split; [exact Hone|].
  exact (@onClassToggle_checked_all R first_draw scene_objects 1 []
                                    (Scene.id ceres) first_draw_below Hone).
Defined.

(** X7 on the scene. *)
Lemma onClassToggle_check_uncheck_witness :
  set_has (onClassToggle first_draw scene_objects (1 # 2) false
             (onClassToggle first_draw scene_objects 1 true [Scene.id earth]))
          (Scene.id earth)
  = set_has [Scene.id earth] (Scene.id earth)
    && negb (has_id scene_objects (Scene.id earth)).
Proof.
  exact (@onClassToggle_check_uncheck R first_draw first_draw scene_objects
           1 (1 # 2) [Scene.id earth] (Scene.id earth) first_draw_below).
Defined.

(** X8 on the scene of two objects, and on the scene with an object of the
    class [constructor], where [initUI] throws. *)
Lemma objectsByClass_groups_witness :
  (exists m,
      objectsByClass scene_objects = Some m /\
      group_get m (Scene.class earth) = Some [earth]) /\
  objectsByClass [earth; vesta; ceres] = None.
Proof.
  destruct (@objectsByClass_groups R scene_objects) as [Hplain _].
  destruct (@objectsByClass_groups R [earth; vesta; ceres]) as [_ Hthrows].
  split.
  - destruct Hplain as (m & Hm & Hget & _).
    + intros o [<- | [<- | []]]; reflexivity.
    + exists m. split; [exact Hm|]. rewrite Hget. reflexivity.
  - apply Hthrows. exists vesta.
    split; [right; left; reflexivity | reflexivity].
Defined.

(** X9 on the scene, the class of [earth] being checked. *)
Lemma drawObjs_after_check_witness :
  objectsByClass scene_objects
  = Some [(Scene.class earth, [earth]); (Scene.class ceres, [ceres])] /\
  (length (drawObjs 800 scene_objects
             (onClassToggle first_draw [earth] 1 true [])) <= 800)%nat.
Proof.
  assert (Hdone : objectsByClass scene_objects
                  = Some [(Scene.class earth, [earth]);
                          (Scene.class ceres, [ceres])]) by reflexivity.
  assert (Hgroup : group_get [(Scene.class earth, [earth]);
                              (Scene.class ceres, [ceres])]
                             (Scene.class earth)
                   = Some [earth]) by reflexivity.
  split; [exact Hdone|].
  exact (proj1 (@drawObjs_after_check R scene_objects [earth] _
                  (Scene.class earth) first_draw [] 800%nat
                  first_draw_below Hdone Hgroup)).
Defined.

(** X12 at the index 3 of a grid of ten times, at the speeds 4 and 1. *)
Lemma timer_tick_advance_witness :
  timer_tick 4 10 3 = 5%Z /\ timer_tick 1 10 3 = 3%Z.
Proof.
  assert (Ht : (0 <= 3 < Z.of_nat 10)%Z) by (simpl; lia).
  assert (H4 : (0 <= 4)%Z) by lia.
  assert (H1 : (0 <= 1)%Z) by lia.
  assert (Hb4 : (Z.of_nat 10 + 4 <= 2 ^ 52)%Z) by (simpl; lia).
  assert (Hb1 : (Z.of_nat 10 + 1 <= 2 ^ 52)%Z) by (simpl; lia).
  assert (Hslow : (1 <= 1)%Z) by lia.
  split.
  - rewrite (proj1 (@TimeIndex.timer_tick_advance 4 10%nat 3%Z Ht H4 Hb4)).
    reflexivity.
  - exact (proj2 (@TimeIndex.timer_tick_advance 1 10%nat 3%Z Ht H1 Hb1) Hslow).
Defined.

(** X13 on the arrays of [earth] at the index 2, with the defaults 120
    and 2. *)
Lemma trail_points_bounded_witness :
  (1 <= 2)%nat /\
  (length (trail_points (x (Scene.body earth)) (y (Scene.body earth))
                        2 120 2) <= 120 + 1)%nat.
Proof.
  assert (Hstep : (1 <= 2)%nat) by lia.
  split; [exact Hstep|].
  exact (proj1 (@trail_points_bounded R (x (Scene.body earth))
                  (y (Scene.body earth)) 2%nat 120%nat 2%nat Hstep)).
Defined.

(** X14 on Earth-like elements, half a year after the epoch. *)
Lemma distance_between_apsides_witness :
  0 < 1 /\ 0 <= 0.0167 < 1 /\
  1 * 149597870.7 * (1 - 0.0167)
  <= norm3 (elementsToPosition 1 0.0167 0 0 102.9 100.5 2451545
                               (Some 2451727.625))
  <= 1 * 149597870.7 * (1 + 0.0167).
Proof.
  assert (Ha : 0 < 1) by lra.
  assert (He : 0 <= 0.0167 < 1) by lra.
  split; [exact Ha|]. split; [exact He|].
  exact (@OrbitProperties.distance_between_apsides 1 0.0167 0 0 102.9 100.5
           2451545 (Some 2451727.625) Ha He).
Defined.

(** X15 on Earth-like elements in the ecliptic plane, half a year after
    the epoch. *)
Lemma zero_inclination_planar_witness :
  0 < 1 /\ 0 <= 0.0167 < 1 /\
  snd (elementsToPosition 1 0.0167 0 0 102.9 100.5 2451545
                          (Some 2451727.625))
  = 0.
Proof.
  assert (Ha : 0 < 1) by lra.
  assert (He : 0 <= 0.0167 < 1) by lra.
  split; [exact Ha|]. split; [exact He|].
  exact (@OrbitProperties.zero_inclination_planar 1 0.0167 0 102.9 100.5
           2451545 (Some 2451727.625) Ha He).
Defined.

(** X16 at the mean anomaly 1 with the default tolerance and cap. *)
Lemma solveKepler_circular_witness :
  0 < 1e-12 /\
  solveKepler 1 0 1e-12 80 = normalize_angle 1.
Proof.
  assert (Htol : 0 < 1e-12) by lra.
  split; [exact Htol|].
  exact (proj1 (@OrbitProperties.solveKepler_circular 1 1e-12 80%nat Htol)).
Defined.

(** X17 on three daily samples of an object with [a = 1]. *)
Lemma zero_rms_exact_fit_witness :
  exists res,
    crossValidateElements (daily_grid 3) (recorded_object 1 3) 10 = Some res /\
    (rms_km res = 0 <->
     forall idx,
       In idx (select_samples (validIdx (daily_grid 3) (recorded_object 1 3))
                              10) ->
       (coordinate (x (recorded_object 1 3)) idx,
        coordinate (y (recorded_object 1 3)) idx,
        coordinate (z (recorded_object 1 3)) idx)
       = elementsToPosition 1 0 0 0 0 0 2451545
                            (Some (nth idx (daily_grid 3) 0))).
Proof.
  assert (Hres : crossValidateElements (daily_grid 3) (recorded_object 1 3) 10
                 = Some {| rms_km := read_rms (daily_grid 3)
                                       (recorded_object 1 3) 1 0 0
                                       (select_samples
                                          (validIdx (daily_grid 3)
                                                    (recorded_object 1 3)) 10);
                           samples := length
                                        (select_samples
                                           (validIdx (daily_grid 3)
                                                     (recorded_object 1 3))
                                           10) |}).
  { eapply crossValidate_computed.
    - reflexivity.
    - cbn [elements recorded_object a_AU truthy_number].
      rewrite Examples.one_is_truthy. reflexivity.
    - reflexivity.
    - reflexivity.
    - rewrite Examples.recorded_object_count. lia.
    - lia. }
  eexists. split; [exact Hres|].
  exact (@FitProperties.zero_rms_exact_fit (daily_grid 3) (recorded_object 1 3)
           10%nat _ 1 0 0 _ eq_refl eq_refl eq_refl eq_refl Hres).
Defined.

(** X18 on the scene with the default offset. *)
Lemma resetView_extents_witness :
  0 <= 1e-3 /\
  View.min_logr (View.resetView 1e-3 scene_objects)
  < View.max_logr (View.resetView 1e-3 scene_objects).
Proof.
  assert (Heps : 0 <= 1e-3) by lra.
  split; [exact Heps|].
  exact (proj2 (proj2 (proj2 (@ViewProperties.resetView_extents
                                1e-3 scene_objects scene_same_length Heps)))).
Defined.

(** X19 on the second sample of [earth]. *)
Lemma resetView_covers_samples_witness :
  View.sample_radius earth 1 = Some (sqrt (149597870.7 * 149597870.7 + 0 * 0)) /\
  sqrt (149597870.7 * 149597870.7 + 0 * 0)
  <= View.max_r (View.resetView 1e-3 scene_objects).
Proof.
  assert (Hin : In earth scene_objects) by (left; reflexivity).
  assert (Hk : (1 * View.extent_stride (length (x (Scene.body earth)))
                < length (x (Scene.body earth)))%nat) by (simpl; lia).
  assert (Hr : View.sample_radius earth
                 (1 * View.extent_stride (length (x (Scene.body earth))))
               = Some (sqrt (149597870.7 * 149597870.7 + 0 * 0)))
    by reflexivity.
  split; [exact Hr|].
  exact (proj1 (@ViewProperties.resetView_covers_samples 1e-3 scene_objects
                  earth 1%nat _ scene_same_length Hin Hk Hr)).
Defined.

Lemma earth_within_extents :
  View.min_r (View.resetView 1e-3 scene_objects)
  <= sqrt (149597870.7 * 149597870.7 + 0 * 0)
  <= View.max_r (View.resetView 1e-3 scene_objects).
Proof.
  assert (Hin : In earth scene_objects) by (left; reflexivity).
  assert (Hk : (0 * View.extent_stride (length (x (Scene.body earth)))
                < length (x (Scene.body earth)))%nat) by (simpl; lia).
  assert (Hr : View.sample_radius earth
                 (0 * View.extent_stride (length (x (Scene.body earth))))
               = Some (sqrt (149597870.7 * 149597870.7 + 0 * 0)))
    by reflexivity.
  destruct (@ViewProperties.resetView_covers 1e-3 scene_objects earth 0%nat _
              Hin Hk Hr) as [Hmax Hmin].
  split; [apply Hmin; rewrite earth_radius; lra | exact Hmax].
Qed.

(** X20 on the recorded position of [earth], drawn on a disc of 400
    pixels about the centre [(500, 450)]. *)
Lemma worldToScreenLog_inside_witness :
  exists s,
    0 <= s < 1 /\
    View.screen_distance
      (View.worldToScreenLog (View.resetView 1e-3 scene_objects) 1e-3
                             500 450 149597870.7 0 400)
      (500, 450)
    = s * 400.
Proof.
  assert (Heps : 0 <= 1e-3) by lra.
  assert (Hmax : 0 <= 400) by lra.
  eexists.
  exact (@ViewProperties.worldToScreenLog_inside 1e-3 scene_objects 500 450
           149597870.7 0 400 scene_same_length Heps Hmax earth_within_extents).
Defined.

End ViewerExamples.
